(** * fluid-bump-version: the version map and the bump decision traversal

    A shallow embedding of [tools/fluid-build/src/bumpVersion/bumpVersion.ts].
    The JavaScript closures of [main] that share the mutable accumulators
    [packageNeedBump], [serverNeedBump] and [depVersions] are written as
    computations in a small state-and-exception monad; the recursion of
    [checkPackageNeedBump] is bounded by a fuel argument and shown never to
    exhaust it. *)

From Stdlib Require Import String Ascii List Arith Lia.
From stdpp Require Import base option list strings gmap relations.

Open Scope string_scope.

(** ** Data model *)

(** Modelled from the spec: the enumeration [MonoRepoKind] of
    [common/monoRepo], whose declaration is not part of the sources at hand.
    The program names exactly two kinds, [MonoRepoKind.Client] and
    [MonoRepoKind.Server] (and the repository object has exactly
    [clientMonoRepo] and [serverMonoRepo]). *)
Inductive MonoRepoKind : Type := Client | Server.

#[global] Instance MonoRepoKind_eq_dec : EqDecision MonoRepoKind.
Proof. solve_decision. Defined.

(** [MonoRepoKind[kind]]: the reverse mapping of a TypeScript numeric enum
    gives the name of the member. *)
Definition MonoRepoKind_name (k : MonoRepoKind) : string :=
  match k with
  | Client => "Client"
  | Server => "Server"
  end.

(** Modelled from the spec: the class [MonoRepo]; the program reads its
    [kind] and its [repoPath]. *)
Record MonoRepo : Type := mkMonoRepo {
  kind : MonoRepoKind;
  repoPath : string
}.

#[global] Instance MonoRepo_eq_dec : EqDecision MonoRepo.
Proof. solve_decision. Defined.

(** One element of [pkg.combinedDependencies]: [{ name, version, dev }],
    where [version] is the declared range. *)
Record Dependency : Type := mkDependency {
  dep_name : string;
  dep_range : string;
  dep_dev : bool
}.

#[global] Instance Dependency_eq_dec : EqDecision Dependency.
Proof. solve_decision. Defined.

(** Modelled from the spec: the class [Package] of [common/npmPackage],
    reduced to what the program reads: [name], [version], the optional
    [monoRepo], [combinedDependencies], [directory] and the manifest's
    scripts (for [getScript]). *)
Record Package : Type := mkPackage {
  name : string;
  version : string;
  monoRepo : option MonoRepo;
  combinedDependencies : list Dependency;
  directory : string;
  scripts : list (string * string)
}.

#[global] Instance Package_eq_dec : EqDecision Package.
Proof. solve_decision. Defined.

(** [pkg.monoRepo === undefined] *)
Definition standalone (p : Package) : Prop := monoRepo p = None.

(** [pkg.monoRepo?.kind] *)
Definition kindOf (p : Package) : option MonoRepoKind := kind <$> monoRepo p.

(** [pkg.getScript(name)]: the script of that name in the manifest. *)
Fixpoint assoc (k : string) (l : list (string * string)) : option string :=
  match l with
  | [] => None
  | (k', v) :: l' => if String.eqb k k' then Some v else assoc k l'
  end.

Definition getScript (p : Package) (script : string) : option string :=
  assoc script (scripts p).

(** What the program can throw: [new Error(message)], thrown by
    [saveVersion]; a [TypeError] that library code throws with a message
    of its own (the semver primitive does); and the [TypeError] that the
    engine raises when [property] is read from [null] or [undefined], or is
    called on a value that has no such method.  The text of the last one is
    the engine's and differs between its versions and between the two cases:
    it is not modelled, the property is. *)
Inductive Exn : Type :=
  | JsError (message : string)
  | JsTypeError (message : string)
  | EngineTypeError (property : string).

Inductive result (A : Type) : Type :=
  | Ok (a : A)
  | Throw (e : Exn).
Arguments Ok {A} a.
Arguments Throw {A} e.

(** JavaScript truthiness of [versions[key]]: [undefined] and the empty
    string are falsy. *)
Definition truthy (v : option string) : bool :=
  match v with
  | Some s => negb (String.eqb s EmptyString)
  | None => false
  end.

(** ** The version map: [saveVersion] and [collectVersions] *)

Definition exclusionPrefix : string := "@fluid-example/version-test".

Definition inconsistentMessage (name version : string) : string :=
  "Inconsistent version within Monorepo " +:+ name +:+ " " +:+ version.

(** The objects [versions] and [depVersions] are plain objects, created
    by [{}], used as maps from strings to strings and mutated in place.  A
    [gmap] holds the own properties of such an object, and the updated map
    is returned.

    One key is not stored by an assignment: [Object.prototype] has an
    accessor named [__proto__], and [versions["__proto__"] = version] calls
    its setter, which ignores a value that is neither an object nor [null].
    Under every other key the assignment creates or overwrites an own
    property. *)
Definition protoKey : string := "__proto__".

(** [versions[key] = version] *)
Definition assign (versions : gmap string string) (key version : string)
    : gmap string string :=
  if String.eqb key protoKey then versions else <[key := version]> versions.

(** The read [versions[MonoRepoKind[monoRepo.kind]]] is that of an own
    property: the key is [Client] or [Server], and [Object.prototype] has
    no property of either name.  [versions[key] !== version] under a truthy
    [versions[key]] compares two strings. *)
Definition saveVersion (versions : gmap string string) (name version : string)
    (monoRepo : option MonoRepo) : result (gmap string string) :=
  match monoRepo with
  | None => Ok (assign versions name version)
  | Some monoRepo =>
      if String.prefix exclusionPrefix name then
        (* Ignore example packages *)
        Ok versions
      else if truthy (versions !! MonoRepoKind_name (kind monoRepo)) then
        if bool_decide (versions !! MonoRepoKind_name (kind monoRepo) ≠ Some version) then
          Throw (JsError (inconsistentMessage name version))
        else Ok versions
      else Ok (assign versions (MonoRepoKind_name (kind monoRepo)) version)
  end.

(** [packages.forEach(pkg => saveVersion(versions, pkg.name, pkg.version, pkg.monoRepo))] *)
Fixpoint saveVersions (versions : gmap string string) (pkgs : list Package)
    : result (gmap string string) :=
  match pkgs with
  | [] => Ok versions
  | pkg :: rest =>
      match saveVersion versions (name pkg) (version pkg) (monoRepo pkg) with
      | Ok versions' => saveVersions versions' rest
      | Throw e => Throw e
      end
  end.

Definition collectVersions (packages : list Package)
    (generatorPackage templatePackage : Package) : result (gmap string string) :=
  match saveVersions ∅ packages with
  | Throw e => Throw e
  | Ok versions =>
      match saveVersion versions (name generatorPackage) (version generatorPackage) None with
      | Throw e => Throw e
      | Ok versions =>
          saveVersion versions (name templatePackage) (version templatePackage) None
      end
  end.

(** ** The semver primitive

    [semver.satisfies] and [semver.minVersion] belong to the npm package
    semver, which is not part of this program: they are an interface.  Either
    may throw; [minVersion] returns a version or [null]. *)
Class Semver : Type := {
  semver_satisfies : string → string → result bool;
  semver_minVersion : string → result (option string)
}.

(** ** The state of the traversal and its monad *)

(** The three accumulators that the closures of [main] share.  The
    JavaScript [Set] [packageNeedBump] holds references and keeps insertion
    order; it is a list of packages here.  Its members are values of the
    registry map, where each package sits under its own name, so that two
    of them are the same object exactly when they are the same record.
    [scanned] is a ghost field: it logs every invocation of
    [checkPackageNeedBump], in order, and influences nothing. *)
Record State : Type := mkState {
  packageNeedBump : list Package;
  serverNeedBump : bool;
  depVersions : gmap string string;
  scanned : list Package
}.

Definition initialState : State :=
  {| packageNeedBump := []; serverNeedBump := false; depVersions := ∅; scanned := [] |}.

(** A computation ends normally, or throws (the state at the throw is kept),
    or exhausts the recursion fuel. *)
Inductive outcome (A : Type) : Type :=
  | Done (a : A) (s : State)
  | Thrown (e : Exn) (s : State)
  | OutOfFuel.
Arguments Done {A} a s.
Arguments Thrown {A} e s.
Arguments OutOfFuel {A}.

Definition M (A : Type) : Type := State → outcome A.

#[global] Instance M_ret : MRet M := λ A a s, Done a s.

#[global] Instance M_bind : MBind M := λ A B f m s,
  match m s with
  | Done a s' => f a s'
  | Thrown e s' => Thrown e s'
  | OutOfFuel => OutOfFuel
  end.

Definition throw {A} (e : Exn) : M A := λ s, Thrown e s.

Definition liftResult {A} (r : result A) : M A :=
  match r with
  | Ok a => mret a
  | Throw e => throw e
  end.

Definition gets {A} (f : State → A) : M A := λ s, Done (f s) s.

Definition modify (f : State → State) : M unit := λ s, Done tt (f s).

Fixpoint forEach {A} (l : list A) (f : A → M unit) : M unit :=
  match l with
  | [] => mret tt
  | x :: l' => f x ;; forEach l' f
  end.

(** The state in which a computation stopped, if it stopped. *)
Definition finalState {A} (o : outcome A) : option State :=
  match o with
  | Done _ s | Thrown _ s => Some s
  | OutOfFuel => None
  end.

(** [packageNeedBump.add(pkg)]: a JavaScript [Set] keeps insertion order. *)
Definition addPackageNeedBump (pkg : Package) (s : State) : State :=
  {| packageNeedBump := packageNeedBump s ++ [pkg];
     serverNeedBump := serverNeedBump s;
     depVersions := depVersions s;
     scanned := scanned s |}.

(** [serverNeedBump = true] *)
Definition setServerNeedBump (s : State) : State :=
  {| packageNeedBump := packageNeedBump s;
     serverNeedBump := true;
     depVersions := depVersions s;
     scanned := scanned s |}.

Definition setDepVersions (m : gmap string string) (s : State) : State :=
  {| packageNeedBump := packageNeedBump s;
     serverNeedBump := serverNeedBump s;
     depVersions := m;
     scanned := scanned s |}.

Definition logScan (pkg : Package) (s : State) : State :=
  {| packageNeedBump := packageNeedBump s;
     serverNeedBump := serverNeedBump s;
     depVersions := depVersions s;
     scanned := scanned s ++ [pkg] |}.

(** [saveVersion(depVersions, name, version, monoRepo)] on the shared map. *)
Definition saveDepVersion (name version : string) (monoRepo : option MonoRepo)
    : M unit :=
  λ s, match saveVersion (depVersions s) name version monoRepo with
       | Ok m => Done tt (setDepVersions m s)
       | Throw e => Thrown e s
       end.

(** ** The bump decision traversal *)

(** Modelled from the spec: [repo.createPackageMap()] of
    [common/fluidRepoBase], the map [packageByName] from each package's name
    to the package; as with the constructor of a JavaScript [Map], a later
    entry with the same key replaces an earlier one. *)
Definition createPackageMap (packages : list Package) : gmap string Package :=
  fold_left (λ m pkg, <[name pkg := pkg]> m) packages ∅.

Section traversal.
Context `{Semver}.
Variable buildPackages : gmap string Package.

(** The body of the [for] loop of [checkPackageNeedBump], for one
    dependency; [recur] is the recursive call. *)
Definition checkDependency (recur : Package → M unit) (d : Dependency) : M unit :=
  match buildPackages !! dep_name d with
  | None => mret tt
  | Some depBuildPackage =>
      sat ← liftResult (semver_satisfies (version depBuildPackage) (dep_range d));
      depVersion ←
        (if sat : bool then
           match monoRepo depBuildPackage with
           | None =>
               has ← gets (λ s, bool_decide (depBuildPackage ∈ packageNeedBump s));
               if has : bool then mret tt
               else
                 modify (addPackageNeedBump depBuildPackage);;
                 recur depBuildPackage
           | Some mr =>
               if decide (kind mr = Server) then modify setServerNeedBump
               else mret tt
           end;;
           mret (version depBuildPackage)
         else
           minVersion ← liftResult (semver_minVersion (dep_range d));
           match minVersion with
           | Some v => mret v
           | None => throw (EngineTypeError "version")
           end);
      saveDepVersion (dep_name d) depVersion (monoRepo depBuildPackage)
  end.

Fixpoint checkPackageNeedBump (fuel : nat) (pkg : Package) : M unit :=
  match fuel with
  | 0 => λ _, OutOfFuel
  | S fuel' =>
      modify (logScan pkg);;
      forEach (combinedDependencies pkg) (checkDependency (checkPackageNeedBump fuel'))
  end.

Variable packages : list Package.

Definition checkMonoRepoNeedBump (fuel : nat) (checkRepo : MonoRepoKind) : M unit :=
  forEach packages (λ pkg,
    if decide (kindOf pkg = Some checkRepo) then checkPackageNeedBump fuel pkg
    else mret tt).

(** Lines 176 to 180 of [main]: the Client wave, then the Server wave if
    the flag was set. *)
Definition checkNeedBump (fuel : nat) : M unit :=
  checkMonoRepoNeedBump fuel Client;;
  server ← gets serverNeedBump;
  if server : bool then checkMonoRepoNeedBump fuel Server else mret tt.

End traversal.

(** The traversal of a registry, with the fuel that is always enough. *)
Definition traversalFuel (packages : list Package) : nat := S (length packages).

Definition bumpDecision `{Semver} (packages : list Package) : outcome unit :=
  checkNeedBump (createPackageMap packages) packages (traversalFuel packages) initialState.

(** ** The program [main]

    What [main] does to the outside world is a sequence of events: the
    commands it runs with [execWithErrorAsync] and the manifest it saves,
    in the order in which it starts them; one that fails is the last.
    Console output, the timer and [versionCheck] (which only warns) are left
    out. *)
Inductive Event : Type :=
  | Exec (command cwd : string)
  | SavePackageJson (directory : string) (dependencies : list Dependency).

(** The mutating events: the mono-repo bump, the per-package and generator
    [npm version], and the manifest save. *)
Definition mutating (ev : Event) : bool :=
  match ev with
  | Exec command _ =>
      String.prefix "npx lerna version" command || String.prefix "npm version" command
  | SavePackageJson _ _ => true
  end.

(** Modelled from the spec: the collaborators of [main], whose code is
    not among the sources ([common/utils], [common/fluidRepoBase],
    [common/npmPackage]), as what [main] finds outside: the root, the
    answer of git, the loaded repository, the two generator packages, and
    what a reload reads after the commands have run.  [reload] refreshes a
    package in place.

    The awaited calls of [execWithErrorAsync] and of [savePackageJson] and
    the reloads may fail (a command or a manifest save that fails, a reload
    that cannot read a manifest or that finds divergent versions in a
    group), and such a failure is fatal.  Whether one fails is not the
    program's to decide: the steps that [main] takes from line 203 to line
    226 are numbered in program order from 0, and [failure n = Some e] says
    that step [n], if [main] gets to it, is rejected or throws with [e]. *)
Record Env : Type := mkEnv {
  resolvedRoot : string;
  gitError : bool;
  gitStdout : string;
  repoPackages : list Package;
  clientMonoRepo : MonoRepo;
  serverMonoRepo : MonoRepo;
  generatorPackage : Package;
  templatePackage : Package;
  reload : Package → Package;
  failure : nat → option Exn
}.

Inductive MainOutcome : Type :=
  | Exit (code : nat)
  | Rejected (e : Exn)
  | Completed
  | FuelExhausted.

(** [stdout.split("\n")[0]] *)
Fixpoint firstLine (s : string) : string :=
  match s with
  | EmptyString => EmptyString
  | String c s' =>
      if Ascii.eqb c "010"%char then EmptyString else String c (firstLine s')
  end.

Definition lernaCommand (versionBump : string) : string :=
  "npx lerna version " +:+ versionBump
  +:+ " --no-push --no-git-tag-version -y && npm run build:genver".

(** [bumpMonoRepo(monoRepo)] *)
Definition bumpMonoRepo (versionBump : string) (monoRepo : MonoRepo) : Event :=
  Exec (lernaCommand versionBump) (repoPath monoRepo).

(** The body of the loop over [packageNeedBump]. *)
Definition bumpPackage (versionBump : string) (pkg : Package) : Event :=
  let cmd := "npm version " +:+ versionBump in
  Exec (if truthy (getScript pkg "build:genver")
        then cmd +:+ " && npm run build:genver" else cmd)
       (directory pkg).

(** [bumpGeneratorFluid]: every dependency of the template that is a
    package of the repository is set to the caret range of that package's
    (reloaded) version; then the manifest is saved and both generator
    packages are bumped. *)
Definition bumpGeneratorFluid (buildPackages : gmap string Package)
    (generatorPackage templatePackage : Package) (versionBump : string)
    : list Event :=
  [ SavePackageJson (directory templatePackage)
      (map (λ d, match buildPackages !! dep_name d with
                 | Some pkg => mkDependency (dep_name d) ("^" +:+ version pkg) (dep_dev d)
                 | None => d
                 end)
           (combinedDependencies templatePackage));
    Exec ("npm version " +:+ versionBump) (directory templatePackage);
    Exec ("npm version " +:+ versionBump) (directory generatorPackage) ].

(** The awaited calls [calls], numbered from [n] on, one after the other:
    the calls that were started, and the error of the one that was
    rejected, if one was. *)
Fixpoint awaitAll (failure : nat → option Exn) (n : nat) (calls : list Event)
    : list Event * option Exn :=
  match calls with
  | [] => ([], None)
  | call :: rest =>
      match failure n with
      | Some e => ([call], Some e)
      | None => let r := awaitAll failure (S n) rest in (call :: r.1, r.2)
      end
  end.

(** The loop [for (const name in oldVersions)] goes through the own
    properties of [oldVersions] and prints [depVersions[name].padStart(10)]
    for each.  Where [name] is an own property of [depVersions] that is a
    string.  Where it is not, the read gives [undefined] or, for a name that
    [Object.prototype] has ([constructor], [toString], ...), a function
    inherited from there; [.padStart(10)] on either raises a [TypeError].
    [__proto__] is never among the names, see [assign].  All failures being
    the same error, the order of the loop does not matter. *)
Definition reportRelease (oldVersions depVersions : gmap string string) : result unit :=
  if bool_decide (dom oldVersions ⊆ dom depVersions) then Ok tt
  else Throw (EngineTypeError "padStart").

(** The loop over the own properties of [newVersions]: for a [name] that
    is not an own property of [oldVersions], [oldVersions[name]] is no
    string and so differs from [newVersions[name]], and
    [oldVersions[name].padStart(10)] raises a [TypeError] as above; for the
    others either branch prints. *)
Definition reportRepo (oldVersions newVersions : gmap string string) : result unit :=
  if bool_decide (dom newVersions ⊆ dom oldVersions) then Ok tt
  else Throw (EngineTypeError "padStart").

(** What the decision phase hands over. *)
Record Decision : Type := mkDecision {
  decided : State;
  releaseVersions : gmap string string;
  oldVersions : gmap string string
}.

Inductive decisionOutcome : Type :=
  | Decided (d : Decision)
  | DecisionThrown (e : Exn)
  | DecisionOutOfFuel.

Section program.
Context `{Semver}.

(** Lines 139 to 188 of [main]: the traversal, then the two generator
    packages recorded into [depVersions], then the snapshot
    [oldVersions]. *)
Definition decisionPhase (env : Env) : decisionOutcome :=
  match bumpDecision (repoPackages env) with
  | OutOfFuel => DecisionOutOfFuel
  | Thrown e _ => DecisionThrown e
  | Done _ st =>
      let generator := generatorPackage env in
      let template := templatePackage env in
      match saveVersion (depVersions st) (name generator) (version generator) None with
      | Throw e => DecisionThrown e
      | Ok depVersions1 =>
          match saveVersion depVersions1 (name template) (version template) None with
          | Throw e => DecisionThrown e
          | Ok depVersions2 =>
              match collectVersions (repoPackages env) generator template with
              | Throw e => DecisionThrown e
              | Ok old => Decided (mkDecision st depVersions2 old)
              end
          end
      end
  end.

(** Lines 203 to 217 of [main]: the bump of the Client group, that of the
    Server group if the flag is set, and that of each package of the
    BumpSet, in the order of the set. *)
Definition bumpCommands (versionBump : string) (env : Env) (st : State) : list Event :=
  ([bumpMonoRepo versionBump (clientMonoRepo env)]
   ++ (if serverNeedBump st then [bumpMonoRepo versionBump (serverMonoRepo env)] else [])
   ++ map (bumpPackage versionBump) (packageNeedBump st))%list.

(** Lines 195 to 236 of [main]: the commands, the reloads and the final
    report.  With [n] bump commands, the steps are numbered thus: the
    commands [0] to [n - 1], [repo.reload()] at [n], the three awaited calls
    of [bumpGeneratorFluid] at [n + 1] to [n + 3],
    [generatorPackage.reload()] at [n + 4] and [templatePackage.reload()]
    at [n + 5].  The first step that fails ends [main]. *)
Definition applyPhase (env : Env) (versionBump : string) (d : Decision)
    : list Event * MainOutcome :=
  let st := decided d in
  let bumps := bumpCommands versionBump env st in
  let n := length bumps in
  match awaitAll (failure env) 0 bumps with
  | (events, Some e) => (events, Rejected e)
  | (events, None) =>
      (* repo.reload() *)
      match failure env n with
      | Some e => (events, Rejected e)
      | None =>
          match awaitAll (failure env) (n + 1)%nat
                  (bumpGeneratorFluid (reload env <$> createPackageMap (repoPackages env))
                     (generatorPackage env) (templatePackage env) versionBump) with
          | (events', Some e) => ((events ++ events')%list, Rejected e)
          | (events', None) =>
              let events := (events ++ events')%list in
              (* generatorPackage.reload() *)
              match failure env (n + 4)%nat with
              | Some e => (events, Rejected e)
              | None =>
                  (* templatePackage.reload() *)
                  match failure env (n + 5)%nat with
                  | Some e => (events, Rejected e)
                  | None =>
                      match collectVersions (map (reload env) (repoPackages env))
                              (reload env (generatorPackage env))
                              (reload env (templatePackage env)) with
                      | Throw e => (events, Rejected e)
                      | Ok newVersions =>
                          match reportRepo (oldVersions d) newVersions with
                          | Throw e => (events, Rejected e)
                          | Ok _ => (events, Completed)
                          end
                      end
                  end
              end
          end
      end
  end.

Definition main (env : Env) : list Event * MainOutcome :=
  let git := [Exec "git rev-parse --abbrev-ref HEAD" (resolvedRoot env)] in
  if gitError env then (git, Exit 1)
  else
    let branchName := firstLine (gitStdout env) in
    if negb (String.eqb branchName "master") && negb (String.prefix "release/" branchName)
    then (git, Exit 2)
    else
      let versionBump := if String.eqb branchName "master" then "minor" else "patch" in
      match decisionPhase env with
      | DecisionOutOfFuel => (git, FuelExhausted)
      | DecisionThrown e => (git, Rejected e)
      | Decided d =>
          match reportRelease (oldVersions d) (releaseVersions d) with
          | Throw e => (git, Rejected e)
          | Ok _ =>
              let '(events, outcome) := applyPhase env versionBump d in
              ((git ++ events)%list, outcome)
          end
      end.

End program.

(** ** A semver instance for the examples

    Plain versions [major.minor.patch] and the ranges [^major.minor.patch]
    and [major.minor.patch], decided as the npm package does: a caret range
    accepts the versions from its own up to the next change of the leftmost
    non-zero component.  On anything else [satisfies] answers [false] and
    [minVersion] throws. *)
Module Caret.
#[local] Open Scope nat_scope.

Definition digit (c : ascii) : option nat :=
  let n := nat_of_ascii c in
  if (48 <=? n) && (n <=? 57) then Some (n - 48) else None.

Fixpoint number_from (acc : nat) (s : string) : option nat :=
  match s with
  | EmptyString => Some acc
  | String c s' =>
      match digit c with
      | Some d => number_from (10 * acc + d) s'
      | None => None
      end
  end.

Definition number (s : string) : option nat :=
  match s with
  | EmptyString => None
  | _ => number_from 0 s
  end.

(** [s.split(".")], with [acc] the part read so far. *)
Fixpoint split_dots (acc s : string) : list string :=
  match s with
  | EmptyString => [acc]
  | String c s' =>
      if Ascii.eqb c "."%char then acc :: split_dots EmptyString s'
      else split_dots (acc +:+ String c EmptyString) s'
  end.

Definition parse (s : string) : option (nat * nat * nat) :=
  match split_dots EmptyString s with
  | [a; b; c] =>
      match number a, number b, number c with
      | Some x, Some y, Some z => Some (x, y, z)
      | _, _, _ => None
      end
  | _ => None
  end.

Definition caret (v r : nat * nat * nat) : bool :=
  let '(vM, vm, vp) := v in
  let '(rM, rm, rp) := r in
  if rM =? 0 then
    if rm =? 0 then (vM =? 0) && (vm =? 0) && (vp =? rp)
    else (vM =? 0) && (vm =? rm) && (rp <=? vp)
  else (vM =? rM) && ((rm <? vm) || ((vm =? rm) && (rp <=? vp))).

Definition exact (v r : nat * nat * nat) : bool :=
  let '(vM, vm, vp) := v in
  let '(rM, rm, rp) := r in
  (vM =? rM) && (vm =? rm) && (vp =? rp).

Definition satisfies (version range : string) : result bool :=
  Ok match range with
     | String "^" bound =>
         match parse version, parse bound with
         | Some v, Some r => caret v r
         | _, _ => false
         end
     | _ =>
         match parse version, parse range with
         | Some v, Some r => exact v r
         | _, _ => false
         end
     end.

Definition invalid (range : string) : Exn :=
  JsTypeError ("Invalid comparator: " +:+ range).

Definition minVersion (range : string) : result (option string) :=
  match range with
  | String "^" bound =>
      match parse bound with
      | Some _ => Ok (Some bound)
      | None => Throw (invalid range)
      end
  | _ =>
      match parse range with
      | Some _ => Ok (Some range)
      | None => Throw (invalid range)
      end
  end.

#[export] Instance semver : Semver :=
  {| semver_satisfies := satisfies; semver_minVersion := minVersion |}.

End Caret.

(** ** Registries for the examples *)
Module Registry.

Definition clientRepo : MonoRepo := mkMonoRepo Client ".".
Definition serverRepo : MonoRepo := mkMonoRepo Server "server/routerlicious".

Definition pkg (name version : string) (monoRepo : option MonoRepo)
    (deps : list (string * string)) : Package :=
  {| name := name; version := version; monoRepo := monoRepo;
     combinedDependencies := map (λ d, mkDependency d.1 d.2 false) deps;
     directory := "packages/" +:+ name; scripts := [] |}.

(** The registry of the spec's first scenario. *)
Definition core : Package := pkg "core" "1.2.0" (Some clientRepo) [].
Definition utils : Package := pkg "utils" "1.2.0" (Some clientRepo) [("core", "^1.0.0")].
Definition tool : Package := pkg "tool" "0.5.0" None [("core", "^1.0.0")].
Definition scenario : list Package := [core; utils; tool].

(** A Client package that uses a Server package; another Server package
    uses a standalone one. *)
Definition app : Package := pkg "app" "1.0.0" (Some clientRepo) [("service", "^2.0.0")].
Definition service : Package := pkg "service" "2.0.0" (Some serverRepo) [].
Definition gateway : Package := pkg "gateway" "2.0.0" (Some serverRepo) [("logger", "^0.3.0")].
Definition logger : Package := pkg "logger" "0.3.1" None [].
Definition twoWaves : list Package := [app; service; gateway; logger].

(** Two standalone packages that depend on each other, reached from a
    Client package. *)
Definition shell : Package := pkg "shell" "1.0.0" (Some clientRepo) [("ping", "^1.0.0")].
Definition ping : Package := pkg "ping" "1.0.0" None [("pong", "^1.0.0")].
Definition pong : Package := pkg "pong" "1.0.0" None [("ping", "^1.0.0")].
Definition cyclic : list Package := [shell; ping; pong].

(** A member of the Client group whose name has the exclusion prefix. *)
Definition versionTest : Package :=
  pkg "@fluid-example/version-test-1" "2.0.0" (Some clientRepo) [].

Definition generator : Package := pkg "generator-fluid" "0.9.0" None [].
Definition template : Package := pkg "template" "0.9.0" None [("core", "^1.0.0")].

(** Environments for [main]: on [master], with a Client group whose
    members carry two different versions, and with one that is
    consistent. *)
Definition masterBranch : string := "master" +:+ String "010"%char EmptyString.

Definition conflicting : Env :=
  {| resolvedRoot := "/repo";
     gitError := false;
     gitStdout := masterBranch;
     repoPackages :=
       [ pkg "app" "1.0.0" (Some clientRepo) [("base", "^1.0.0"); ("extra", "^1.1.0")];
         pkg "base" "1.0.0" (Some clientRepo) [];
         pkg "extra" "1.1.0" (Some clientRepo) [] ];
     clientMonoRepo := clientRepo;
     serverMonoRepo := serverRepo;
     generatorPackage := generator;
     templatePackage := template;
     reload := λ p, p;
     failure := λ _, None |}.

Definition consistent : Env :=
  {| resolvedRoot := "/repo";
     gitError := false;
     gitStdout := masterBranch;
     repoPackages := [core; utils];
     clientMonoRepo := clientRepo;
     serverMonoRepo := serverRepo;
     generatorPackage := generator;
     templatePackage := template;
     reload := λ p, p;
     failure := λ _, None |}.

(** As [consistent], but the reload after the commands finds [core]
    at another version than [utils]. *)
Definition diverging : Env :=
  {| resolvedRoot := "/repo";
     gitError := false;
     gitStdout := masterBranch;
     repoPackages := [core; utils];
     clientMonoRepo := clientRepo;
     serverMonoRepo := serverRepo;
     generatorPackage := generator;
     templatePackage := template;
     reload := λ p, if String.eqb (name p) "core"
                    then pkg "core" "1.3.0" (Some clientRepo) [] else p;
     failure := λ _, None |}.

(** As [consistent], but step [n] of the apply phase fails with [e]. *)
Definition failingAt (n : nat) (e : Exn) : Env :=
  {| resolvedRoot := "/repo";
     gitError := false;
     gitStdout := masterBranch;
     repoPackages := [core; utils];
     clientMonoRepo := clientRepo;
     serverMonoRepo := serverRepo;
     generatorPackage := generator;
     templatePackage := template;
     reload := λ p, p;
     failure := λ m, if Nat.eqb m n then Some e else None |}.

End Registry.

(** ** What the traversal is specified against *)
Section specification.
Context `{Semver}.
Variable buildPackages : gmap string Package.

(** [X] declares a dependency that resolves to [Y] in the registry, and
    the declared range accepts the current version of [Y]. *)
Definition satisfiedEdge (X Y : Package) : Prop :=
  ∃ d, d ∈ combinedDependencies X
       ∧ buildPackages !! dep_name d = Some Y
       ∧ semver_satisfies (version Y) (dep_range d) = Ok true.

(** The members of the BumpSet are standalone values of the registry map,
    with pairwise different names. *)
Definition wellFormed (st : State) : Prop :=
  NoDup (name <$> packageNeedBump st)
  ∧ ∀ p, p ∈ packageNeedBump st → buildPackages !! name p = Some p ∧ monoRepo p = None.

(** What a satisfied edge to [Y] leaves behind. *)
Definition handled (Y : Package) (st : State) : Prop :=
  (monoRepo Y = None → Y ∈ packageNeedBump st)
  ∧ (kindOf Y = Some Server → serverNeedBump st = true).

Definition closed (X : Package) (st : State) : Prop :=
  ∀ Y, satisfiedEdge X Y → handled Y st.

(** The same for one declared dependency [d]. *)
Definition edgeHandled (d : Dependency) (st : State) : Prop :=
  ∀ Y, buildPackages !! dep_name d = Some Y →
       semver_satisfies (version Y) (dep_range d) = Ok true → handled Y st.

(** The accumulators only grow. *)
Definition extends (st st' : State) : Prop :=
  packageNeedBump st ⊆ packageNeedBump st'
  ∧ (serverNeedBump st = true → serverNeedBump st' = true)
  ∧ scanned st ⊆ scanned st'.

(** Every scan begun between [st] and [st'] has handled all its edges. *)
Definition closedSince (st st' : State) : Prop :=
  ∀ X, X ∈ scanned st' → X ∈ scanned st ∨ closed X st'.

(** What a run from [st] that does not exhaust its fuel establishes, for
    an invariant [Inv]. *)
Definition good (Inv : State → Prop) (st : State) (o : outcome unit) : Prop :=
  match o with
  | Done _ st' => wellFormed st' ∧ Inv st' ∧ extends st st' ∧ closedSince st st'
  | Thrown _ st' => wellFormed st' ∧ Inv st' ∧ extends st st'
  | OutOfFuel => False
  end.

(** The packages of one group, in registry order: the roots of a wave. *)
Definition membersOf (checkRepo : MonoRepoKind) (packages : list Package) : list Package :=
  filter (λ pkg, kindOf pkg = Some checkRepo) packages.

(** The roots of the whole traversal that ended in [st]. *)
Definition roots (packages : list Package) (st : State) : list Package :=
  membersOf Client packages
  ++ (if serverNeedBump st then membersOf Server packages else []).

(** Every member of the BumpSet is reached from a package in [R]. *)
Definition reachedFrom (R : Package → Prop) (st : State) : Prop :=
  ∀ p, p ∈ packageNeedBump st → ∃ r, R r ∧ tc satisfiedEdge r p.

(** The scans so far are those of the roots [V] and of the BumpSet. *)
Definition scansAre (V : list Package) (st : State) : Prop :=
  scanned st ≡ₚ V ++ packageNeedBump st.

(** [pkg] is in [R] or reached from it. *)
Definition reachable (R : Package → Prop) (pkg : Package) : Prop :=
  R pkg ∨ ∃ r, R r ∧ tc satisfiedEdge r pkg.

(** What holds between two steps of the loop, and what holds when
    [checkPackageNeedBump pkg] is entered. *)
Definition traversalInv (R : Package → Prop) (V : list Package) (st : State) : Prop :=
  scansAre V st ∧ reachedFrom R st.

Definition traversalPre (R : Package → Prop) (V : list Package) (pkg : Package)
    (st : State) : Prop :=
  scanned st ++ [pkg] ≡ₚ V ++ packageNeedBump st
  ∧ reachedFrom R st
  ∧ (R pkg ∨ pkg ∈ packageNeedBump st).

End specification.

(** Two states that differ at most in the ghost log. *)
Definition sameButScans (s s' : State) : Prop :=
  packageNeedBump s = packageNeedBump s'
  ∧ serverNeedBump s = serverNeedBump s'
  ∧ depVersions s = depVersions s'.

Definition sameOutcome {A} (o o' : outcome A) : Prop :=
  match o, o' with
  | Done a s, Done a' s' => a = a' ∧ sameButScans s s'
  | Thrown e s, Thrown e' s' => e = e' ∧ sameButScans s s'
  | OutOfFuel, OutOfFuel => True
  | _, _ => False
  end.

(** ** Further notions: the keys of a version map *)

(** The key under which [saveVersion] records, if it records at all: the
    name of a standalone package, unless that name is [__proto__]; the kind
    of the group of a member; none for a member whose name has the
    exclusion prefix. *)
Definition unitKey (name : string) (monoRepo : option MonoRepo) : option string :=
  match monoRepo with
  | None => if String.eqb name protoKey then None else Some name
  | Some mr =>
      if String.prefix exclusionPrefix name then None
      else Some (MonoRepoKind_name (kind mr))
  end.

(** The keys that [collectVersions] writes: those of the packages of the
    repository, and those of the two generator packages, which are
    recorded without a group. *)
Definition unitKeys (packages : list Package)
    (generatorPackage templatePackage : Package) : gset string :=
  list_to_set (omap (λ p, unitKey (name p) (monoRepo p)) packages)
  ∪ list_to_set (omap (λ p, unitKey (name p) None) [generatorPackage; templatePackage]).

(** A member of group [k] that takes part in the consistency check. *)
Definition counted (k : MonoRepoKind) (p : Package) : Prop :=
  kindOf p = Some k ∧ String.prefix exclusionPrefix (name p) = false.

(** A key that is the name of a group. *)
Definition groupKey (key : string) : Prop := ∃ k, key = MonoRepoKind_name k.

(** Some package of the list declares a dependency of that name. *)
Definition declared (packages : list Package) (key : string) : Prop :=
  ∃ X d, X ∈ packages ∧ d ∈ combinedDependencies X ∧ dep_name d = key.

(** Every key of [depVersions] is the name of a group or a declared
    dependency. *)
Definition keysKnown (packages : list Package) (st : State) : Prop :=
  ∀ key, is_Some (depVersions st !! key) → groupKey key ∨ declared packages key.

(** No standalone package of the list has the name of a group. *)
Definition noGroupNamed (packages : list Package) : Prop :=
  ∀ p, p ∈ packages → monoRepo p = None → ¬ groupKey (name p).

(** The members that take part in the consistency check carry a version
    that is not the empty string. *)
Definition versionsGiven (packages : list Package) : Prop :=
  ∀ p k, p ∈ packages → counted k p → version p ≠ EmptyString.

(** The members of each group that take part in the consistency check
    carry one version. *)
Definition consistentGroups (packages : list Package) : Prop :=
  ∀ p q k, p ∈ packages → q ∈ packages → counted k p → counted k q →
           version p = version q.

Section specification_flag.
Context `{Semver}.
Variable buildPackages : gmap string Package.

(** Where a version recorded for the dependency [d], resolved to [Y],
    comes from: the current version of [Y] when the range is satisfied, the
    minimum of the range when it is not. *)
Definition recordedFor (d : Dependency) (Y : Package) (v : string) : Prop :=
  (semver_satisfies (version Y) (dep_range d) = Ok true ∧ v = version Y)
  ∨ (semver_satisfies (version Y) (dep_range d) = Ok false
     ∧ semver_minVersion (dep_range d) = Ok (Some v)).

(** Every entry of [depVersions] was recorded for a dependency that a
    package of the list declares. *)
Definition valuesKnown (packages : list Package) (st : State) : Prop :=
  ∀ key v, depVersions st !! key = Some v →
    ∃ X d Y, X ∈ packages ∧ d ∈ combinedDependencies X
             ∧ buildPackages !! dep_name d = Some Y
             ∧ unitKey (dep_name d) (monoRepo Y) = Some key
             ∧ recordedFor d Y v.

(** A member of the Server group is reached from [R] by satisfied edges. *)
Definition serverReached (R : Package → Prop) : Prop :=
  ∃ r Y, R r ∧ kindOf Y = Some Server ∧ tc (satisfiedEdge buildPackages) r Y.

(** The invariant of the waves, with what the flag tells when set. *)
Definition flagInv (R : Package → Prop) (V : list Package) (st : State) : Prop :=
  traversalInv buildPackages R V st ∧ (serverNeedBump st = true → serverReached R).

Definition flagPre (R : Package → Prop) (V : list Package) (pkg : Package)
    (st : State) : Prop :=
  traversalPre buildPackages R V pkg st ∧ (serverNeedBump st = true → serverReached R).

End specification_flag.

(** The repository of the first scenario, on [master]. *)
Definition scenarioEnv : Env :=
  {| resolvedRoot := "/repo";
     gitError := false;
     gitStdout := Registry.masterBranch;
     repoPackages := Registry.scenario;
     clientMonoRepo := Registry.clientRepo;
     serverMonoRepo := Registry.serverRepo;
     generatorPackage := Registry.generator;
     templatePackage := Registry.template;
     reload := λ p, p;
     failure := λ _, None |}.

(** The number of steps of the apply phase that can fail: the bump
    commands, [repo.reload()], the three awaited calls of
    [bumpGeneratorFluid] and the reloads of the two generator packages. *)
Definition applySteps (st : State) : nat :=
  (length (packageNeedBump st) + (if serverNeedBump st then 1 else 0) + 7)%nat.

(** ** [versionCheck] and [parseOptions] *)

Definition builtVersion : string := "0.0.5".

Definition outOfDateWarning (pkgVersion : string) : string :=
  "WARNING: fluid-bump-version is out of date, please rebuild (built: "
  +:+ builtVersion +:+ ", package: " +:+ pkgVersion +:+ ")"
  +:+ String "010"%char EmptyString.

(** [versionCheck()], as a function of the version that the tool's own
    package.json carries: the warning it prints, if any.  The test
    [pkg.version > builtVersion] compares two strings, code unit by code
    unit. *)
Definition versionCheck (pkgVersion : string) : option string :=
  if String.ltb builtVersion pkgVersion then Some (outOfDateWarning pkgVersion)
  else None.

(** How [parseOptions] ends: it returns, or it ends the process with
    [process.exit(code)] after the usage, and after the complaint about an
    invalid argument if there is one. *)
Inductive ParseOutcome : Type :=
| Returned
| Exited (code : Z) (complaint : option string).

Definition isHelp (arg : string) : bool :=
  String.eqb arg "-?" || String.eqb arg "--help".

Definition invalidArguments (arg : string) : string :=
  "ERROR: Invalid arguments " +:+ arg.

Section options.

(** [parseOption] of [common/commonOptions] is not among the sources and
    is a parameter here.  The loop reads its answer as follows: a negative
    number is an error, a positive number is the count of arguments
    consumed from the position on, zero means that the argument is not a
    common option. *)
Variable parseOption : list string → nat → Z.

(** The [for] loop of [parseOptions] from position [i] on; [None] when the
    fuel is used up.  Inside the loop [i] is a position of [argv]. *)
Fixpoint parseFrom (fuel : nat) (argv : list string) (i : nat) : option ParseOutcome :=
  if (length argv <=? i)%nat then Some Returned
  else
    match fuel with
    | 0 => None
    | S fuel' =>
        let argParsed := parseOption argv i in
        if (argParsed <? 0)%Z then Some (Exited (-1) None)
        else if (0 <? argParsed)%Z then
          parseFrom fuel' argv (i + Z.to_nat (argParsed - 1) + 1)%nat
        else
          let arg := default EmptyString (argv !! i) in
          if isHelp arg then Some (Exited 0 None)
          else Some (Exited (-1) (Some (invalidArguments arg)))
    end.

Definition parseOptions (argv : list string) : option ParseOutcome :=
  parseFrom (length argv) argv 2.

End options.

(** * Proofs *)

#[local] Open Scope nat_scope.
#[local] Open Scope list_scope.

(** ** Properties of [saveVersion] *)

Lemma assign_ne versions key version :
  key ≠ protoKey → assign versions key version = <[key := version]> versions.
Proof. intros Hkey. unfold assign. by destruct (String.eqb_spec key protoKey). Qed.

Lemma assign_proto versions version : assign versions protoKey version = versions.
Proof. reflexivity. Qed.

Lemma kind_not_proto k : MonoRepoKind_name k ≠ protoKey.
Proof. by destruct k. Qed.

Lemma excluded_not_proto name : String.prefix exclusionPrefix name = true → name ≠ protoKey.
Proof. by intros Hname ->. Qed.

Lemma saveVersion_None versions name version :
  saveVersion versions name version None = Ok (assign versions name version).
Proof. reflexivity. Qed.

Lemma lookup_assign_eq versions key version :
  key ≠ protoKey → assign versions key version !! key = Some version.
Proof. intros Hkey. rewrite assign_ne by done. apply lookup_insert_eq. Qed.

Lemma lookup_assign_ne versions key version k :
  k ≠ key → assign versions key version !! k = versions !! k.
Proof.
  intros Hk. unfold assign. destruct (String.eqb key protoKey); [done|].
  by apply lookup_insert_ne.
Qed.

Lemma lookup_assign_proto versions key version :
  assign versions key version !! protoKey = versions !! protoKey.
Proof.
  unfold assign. destruct (String.eqb_spec key protoKey) as [Hkey|Hkey]; [done|].
  by apply lookup_insert_ne.
Qed.

Lemma unitKey_standalone name : name ≠ protoKey → unitKey name None = Some name.
Proof. intros Hname. unfold unitKey. by destruct (String.eqb_spec name protoKey). Qed.

Lemma unitKey_Some name monoRepo key :
  unitKey name monoRepo = Some key
  ↔ (monoRepo = None ∧ name = key ∧ key ≠ protoKey)
    ∨ (∃ mr, monoRepo = Some mr ∧ String.prefix exclusionPrefix name = false
             ∧ key = MonoRepoKind_name (kind mr)).
Proof.
  unfold unitKey. destruct monoRepo as [mr|].
  - destruct (String.prefix exclusionPrefix name) eqn:Ename; split.
    + done.
    + intros [[? _]|(mr' & _ & ? & _)]; done.
    + intros [= <-]. right. by exists mr.
    + intros [[? _]|(mr' & [= <-] & _ & ->)]; done.
  - destruct (String.eqb_spec name protoKey) as [Hname|Hname]; split.
    + done.
    + intros [(_ & <- & ?)|(mr & ? & _)]; done.
    + intros [= <-]. by left.
    + intros [(_ & <- & _)|(mr & ? & _)]; done.
Qed.

Lemma unitKey_not_proto name monoRepo : unitKey name monoRepo ≠ Some protoKey.
Proof.
  intros [(_ & _ & ?)|(mr & _ & _ & Hk)]%unitKey_Some; [done|].
  by apply (kind_not_proto (kind mr)).
Qed.

Lemma dom_assign versions key version :
  dom (assign versions key version)
  = dom versions ∪ from_option singleton ∅ (unitKey key None).
Proof.
  unfold assign, unitKey. destruct (String.eqb key protoKey); simpl.
  - by rewrite (right_id_L ∅ (∪)).
  - by rewrite dom_insert_L, (comm_L (∪)).
Qed.

Lemma saveVersion_Some_excluded versions name version mr :
  String.prefix exclusionPrefix name = true →
  saveVersion versions name version (Some mr) = Ok versions.
Proof. intros H. unfold saveVersion. by rewrite H. Qed.

Lemma truthy_Some held : truthy (Some held) = true ↔ held ≠ EmptyString.
Proof.
  unfold truthy. destruct (String.eqb_spec held EmptyString); simpl; split; try done.
Qed.

Lemma saveVersion_Some_fresh versions name version mr :
  String.prefix exclusionPrefix name = false →
  truthy (versions !! MonoRepoKind_name (kind mr)) = false →
  saveVersion versions name version (Some mr)
  = Ok (<[MonoRepoKind_name (kind mr) := version]> versions).
Proof.
  intros H1 H2. unfold saveVersion. rewrite H1, H2.
  by rewrite assign_ne by apply kind_not_proto.
Qed.

Lemma saveVersion_Some_same versions name version mr :
  versions !! MonoRepoKind_name (kind mr) = Some version →
  saveVersion versions name version (Some mr) = Ok versions.
Proof.
  intros H. unfold saveVersion. rewrite H.
  destruct (String.prefix exclusionPrefix name); [done|].
  rewrite bool_decide_eq_false_2 by (intros ?; done).
  destruct (truthy (Some version)) eqn:E; [done|].
  rewrite assign_ne by apply kind_not_proto. f_equal. by apply insert_id.
Qed.

Lemma saveVersion_Some_conflict versions name version mr held :
  String.prefix exclusionPrefix name = false →
  versions !! MonoRepoKind_name (kind mr) = Some held →
  held ≠ EmptyString → held ≠ version →
  saveVersion versions name version (Some mr)
  = Throw (JsError (inconsistentMessage name version)).
Proof.
  intros H1 H2 H3 H4. unfold saveVersion. rewrite H1, H2.
  rewrite (proj2 (truthy_Some held) H3).
  rewrite bool_decide_eq_true_2; [done|]. congruence.
Qed.

(** ** The monad *)

Lemma saveDepVersion_cases name version mr s :
  (∃ m, saveVersion (depVersions s) name version mr = Ok m
        ∧ saveDepVersion name version mr s = Done tt (setDepVersions m s))
  ∨ (∃ e, saveVersion (depVersions s) name version mr = Throw e
          ∧ saveDepVersion name version mr s = Thrown e s).
Proof.
  unfold saveDepVersion.
  destruct (saveVersion (depVersions s) name version mr); eauto.
Qed.

Section invariant_rule.
Context `{Semver}.
Variable buildPackages : gmap string Package.
Hypothesis keyed : ∀ k p, buildPackages !! k = Some p → name p = k.

Lemma wellFormed_length st :
  wellFormed buildPackages st → length (packageNeedBump st) ≤ size buildPackages.
Proof.
  intros [Hnd Hin].
  rewrite <- (length_fmap name), <- size_dom.
  unfold size, set_size; simpl.
  apply submseteq_length, NoDup_submseteq; [done|].
  intros x [p [-> Hp]]%list_elem_of_fmap.
  apply elem_of_elements, elem_of_dom. destruct (Hin p Hp) as [E _]. eauto.
Qed.

Lemma wellFormed_add Y st :
  wellFormed buildPackages st → buildPackages !! name Y = Some Y →
  monoRepo Y = None → Y ∉ packageNeedBump st →
  wellFormed buildPackages (addPackageNeedBump Y st).
Proof.
  intros [Hnd Hin] HY Hs Hn. split; simpl.
  - rewrite fmap_app. apply NoDup_app. split; [done|]. split; [|apply NoDup_singleton].
    intros x [p [-> Hp]]%list_elem_of_fmap. simpl. intros E%list_elem_of_singleton.
    destruct (Hin p Hp) as [E' _]. rewrite E, HY in E'. congruence.
  - intros p [Hp| ->%list_elem_of_singleton]%elem_of_app; auto.
Qed.

Lemma extends_refl st : extends st st.
Proof. by repeat split. Qed.

Lemma extends_trans st1 st2 st3 : extends st1 st2 → extends st2 st3 → extends st1 st3.
Proof.
  intros (A1 & B1 & C1) (A2 & B2 & C2). repeat split; [by etrans|auto|by etrans].
Qed.

Lemma handled_extends Y st st' : extends st st' → handled Y st → handled Y st'.
Proof. intros (A & B & _) [H1 H2]. split; intros; [apply A|apply B]; auto. Qed.

Lemma closed_extends X st st' :
  extends st st' → closed buildPackages X st → closed buildPackages X st'.
Proof. intros E C Y HY. eapply handled_extends; eauto. Qed.

Lemma closedSince_refl st : closedSince buildPackages st st.
Proof. intros X HX. by left. Qed.

Lemma closedSince_trans st1 st2 st3 :
  extends st2 st3 →
  closedSince buildPackages st1 st2 → closedSince buildPackages st2 st3 →
  closedSince buildPackages st1 st3.
Proof.
  intros E C1 C2 X HX. destruct (C2 X HX) as [HX2|?]; [|by right].
  destruct (C1 X HX2) as [?|HC]; [by left|right]. eapply closed_extends; eauto.
Qed.

Variable Pre : Package → State → Prop.
Variable Inv : State → Prop.
Variable Act : Package → Prop.
Hypothesis Hlog : ∀ pkg st, Pre pkg st → Inv (logScan pkg st) ∧ Act pkg.
Hypothesis Hadd : ∀ pkg Y st,
  Inv st → Act pkg → wellFormed buildPackages st → satisfiedEdge buildPackages pkg Y →
  monoRepo Y = None → Y ∉ packageNeedBump st → Pre Y (addPackageNeedBump Y st).
Hypothesis Hflag : ∀ pkg Y st,
  Inv st → Act pkg → satisfiedEdge buildPackages pkg Y → kindOf Y = Some Server →
  Inv (setServerNeedBump st).
Hypothesis Hsave : ∀ pkg d Y v m st,
  Inv st → Act pkg → d ∈ combinedDependencies pkg →
  buildPackages !! dep_name d = Some Y → recordedFor d Y v →
  saveVersion (depVersions st) (dep_name d) v (monoRepo Y) = Ok m →
  Inv (setDepVersions m st).

Lemma checkDependency_good recur n pkg d st :
  (∀ Y st, wellFormed buildPackages st → Pre Y st →
           size buildPackages < n + length (packageNeedBump st) →
           good buildPackages Inv st (recur Y st)) →
  Act pkg → d ∈ combinedDependencies pkg →
  wellFormed buildPackages st → Inv st →
  size buildPackages < S n + length (packageNeedBump st) →
  match checkDependency buildPackages recur d st with
  | Done _ st' =>
      (wellFormed buildPackages st' ∧ Inv st' ∧ extends st st')
      ∧ closedSince buildPackages st st' ∧ edgeHandled buildPackages d st'
  | Thrown _ st' => wellFormed buildPackages st' ∧ Inv st' ∧ extends st st'
  | OutOfFuel => False
  end.
Proof.
  intros IH HA Hd Hwf HI Hfuel.
  pose proof (extends_refl st) as Hrefl.
  pose proof (closedSince_refl st) as Hcrefl.
  unfold checkDependency.
  destruct (buildPackages !! dep_name d) as [Y|] eqn:EY.
  2:{ simpl. split; [done|]. split; [done|]. intros Y HY. congruence. }
  assert (Hfin : ∀ v, recordedFor d Y v → ∀ s1,
    wellFormed buildPackages s1 → Inv s1 → extends st s1 →
    closedSince buildPackages st s1 → edgeHandled buildPackages d s1 →
    match saveDepVersion (dep_name d) v (monoRepo Y) s1 with
    | Done _ st' =>
        (wellFormed buildPackages st' ∧ Inv st' ∧ extends st st')
        ∧ closedSince buildPackages st st' ∧ edgeHandled buildPackages d st'
    | Thrown _ st' => wellFormed buildPackages st' ∧ Inv st' ∧ extends st st'
    | OutOfFuel => False
    end).
  { intros v Hv s1 W I E C D.
    destruct (saveDepVersion_cases (dep_name d) v (monoRepo Y) s1)
      as [(m & Hm & ->)|(e & _ & ->)]; [|done].
    split; [|done]. split; [done|]. split; [|done]. by eapply Hsave. }
  destruct (semver_satisfies (version Y) (dep_range d)) as [[|]|e] eqn:Esat.
  - assert (Hedge : satisfiedEdge buildPackages pkg Y) by (exists d; auto).
    specialize (Hfin (version Y) (or_introl (conj Esat eq_refl))).
    destruct (monoRepo Y) as [mr|] eqn:EM.
    + destruct (decide (kind mr = Server)) as [Ek|Ek];
        unfold mbind, M_bind, liftResult, mret, M_ret, modify; simpl.
      * apply Hfin; [done| |by repeat split|by intros X HX; left|].
        { eapply Hflag; eauto. unfold kindOf. rewrite EM. simpl. by rewrite Ek. }
        intros Y' HY' _. split; [|done].
        assert (Y' = Y) as -> by congruence. congruence.
      * apply Hfin; [done..|].
        intros Y' HY' _. assert (Y' = Y) as -> by congruence.
        split; [congruence|]. unfold kindOf. rewrite EM. simpl. congruence.
    + unfold mbind, M_bind, liftResult, mret, M_ret, modify, gets; simpl.
      case_bool_decide as Hin.
      * apply Hfin; [done..|].
        intros Y' HY' _. assert (Y' = Y) as -> by congruence.
        split; [done|]. unfold kindOf. rewrite EM. done.
      * assert (HnY : buildPackages !! name Y = Some Y)
          by (by rewrite (keyed _ _ EY)).
        pose proof (wellFormed_add Y st Hwf HnY EM Hin) as Hwf1.
        assert (Hext1 : extends st (addPackageNeedBump Y st)).
        { repeat split; simpl; auto. intros x Hx. apply elem_of_app; auto. }
        specialize (IH Y (addPackageNeedBump Y st) Hwf1
                      (Hadd pkg Y st HI HA Hwf Hedge EM Hin)).
        destruct (recur Y (addPackageNeedBump Y st)) as [[] s2|e s2|].
        -- destruct IH as (W & I & E & C); [simpl; rewrite length_app; simpl; lia|].
           apply Hfin; [done|done|..].
           ++ eapply extends_trans; eauto.
           ++ intros X HX. destruct (C X HX); auto.
           ++ intros Y' HY' _. assert (Y' = Y) as -> by congruence.
              split; [|unfold kindOf; rewrite EM; done].
              intros _. apply E. simpl. apply elem_of_app. right. by apply list_elem_of_singleton.
        -- destruct IH as (W & I & E); [simpl; rewrite length_app; simpl; lia|].
           split; [done|]. split; [done|]. eapply extends_trans; eauto.
        -- apply IH. simpl; rewrite length_app; simpl; lia.
  - unfold mbind, M_bind, liftResult, mret, M_ret, throw; simpl.
    destruct (semver_minVersion (dep_range d)) as [[v|]|e] eqn:Emin; simpl; auto.
    apply (Hfin v (or_intror (conj Esat Emin))); [done..|].
    intros Y' HY' HS. congruence.
  - simpl. auto.
Qed.

Lemma extends_length st st' :
  wellFormed buildPackages st → extends st st' →
  length (packageNeedBump st) ≤ length (packageNeedBump st').
Proof.
  intros [Hnd _] (Hsub & _). apply submseteq_length, NoDup_submseteq; [|done].
  by apply NoDup_fmap_1 in Hnd.
Qed.

Lemma forEach_checkDependency_good recur n pkg deps : ∀ st,
  (∀ Y st, wellFormed buildPackages st → Pre Y st →
           size buildPackages < n + length (packageNeedBump st) →
           good buildPackages Inv st (recur Y st)) →
  Act pkg → deps ⊆ combinedDependencies pkg →
  wellFormed buildPackages st → Inv st →
  size buildPackages < S n + length (packageNeedBump st) →
  match forEach deps (checkDependency buildPackages recur) st with
  | Done _ st' =>
      (wellFormed buildPackages st' ∧ Inv st' ∧ extends st st')
      ∧ closedSince buildPackages st st' ∧ Forall (λ d, edgeHandled buildPackages d st') deps
  | Thrown _ st' => wellFormed buildPackages st' ∧ Inv st' ∧ extends st st'
  | OutOfFuel => False
  end.
Proof.
  induction deps as [|d deps IHdeps]; intros st IH HA Hsub Hwf HI Hfuel.
  - simpl. split; [by split; [|split; [|apply extends_refl]]|]. split; [apply closedSince_refl|constructor].
  - simpl. unfold mbind, M_bind.
    assert (Hd : d ∈ combinedDependencies pkg) by (apply Hsub; left).
    pose proof (checkDependency_good recur n pkg d st IH HA Hd Hwf HI Hfuel) as Hone.
    destruct (checkDependency buildPackages recur d st) as [[] s1|e s1|]; [|done..].
    destruct Hone as ((W1 & I1 & E1) & C1 & D1).
    assert (Hsub' : deps ⊆ combinedDependencies pkg)
      by (intros x Hx; apply Hsub; by right).
    pose proof (extends_length st s1 Hwf E1) as Hlen.
    specialize (IHdeps s1 IH HA Hsub' W1 I1 ltac:(lia)).
    destruct (forEach deps (checkDependency buildPackages recur) s1) as [[] s2|e s2|];
      [|by (destruct IHdeps as (? & ? & ?); eauto using extends_trans)|done].
    destruct IHdeps as ((W2 & I2 & E2) & C2 & D2).
    split; [eauto using extends_trans|]. split; [by eapply closedSince_trans|].
    constructor; [|done].
    intros Y HY HS. eapply handled_extends; eauto.
Qed.

Lemma checkPackageNeedBump_good fuel : ∀ pkg st,
  wellFormed buildPackages st → Pre pkg st →
  size buildPackages < fuel + length (packageNeedBump st) →
  good buildPackages Inv st (checkPackageNeedBump buildPackages fuel pkg st).
Proof.
  induction fuel as [|n IHn]; intros pkg st Hwf HP Hfuel.
  - pose proof (wellFormed_length st Hwf). lia.
  - destruct (Hlog pkg st HP) as [HI HA].
    simpl. unfold mbind, M_bind, modify.
    pose proof (forEach_checkDependency_good (checkPackageNeedBump buildPackages n) n pkg
                  (combinedDependencies pkg) (logScan pkg st) IHn HA
                  ltac:(done) Hwf HI Hfuel) as Hloop.
    assert (Hlogext : extends st (logScan pkg st)).
    { repeat split; simpl; auto. intros x Hx. apply elem_of_app; auto. }
    destruct (forEach _ _ (logScan pkg st)) as [[] s1|e s1|]; simpl; [| |done].
    + destruct Hloop as ((W & I & E) & C & D).
      split; [done|]. split; [done|]. split; [by eapply extends_trans|].
      intros X HX. destruct (C X HX) as [HX'|HX']; [|by right].
      simpl in HX'. apply elem_of_app in HX' as [?| ->%list_elem_of_singleton]; [by left|].
      right. intros Y (d & Hd & HY & HS).
      rewrite Forall_forall in D. by apply (D d Hd).
    + destruct Hloop as (W & I & E). eauto using extends_trans.
Qed.
End invariant_rule.

(** ** The registry map *)

Lemma createPackageMap_fold packages : ∀ (m : gmap string Package) k p,
  fold_left (λ m pkg, <[name pkg := pkg]> m) packages m !! k = Some p →
  m !! k = Some p ∨ (name p = k ∧ p ∈ packages).
Proof.
  induction packages as [|q packages IH]; intros m k p Hk; simpl in *; [by left|].
  destruct (IH _ _ _ Hk) as [Hq|[? ?]].
  - destruct (decide (name q = k)) as [<-|Hne].
    + rewrite lookup_insert_eq in Hq. injection Hq as ->. right. split; [done|left].
    + rewrite lookup_insert_ne in Hq by done. by left.
  - right. split; [done|by right].
Qed.

Lemma createPackageMap_lookup packages k p :
  createPackageMap packages !! k = Some p → name p = k ∧ p ∈ packages.
Proof.
  intros Hk. destruct (createPackageMap_fold _ _ _ _ Hk) as [Hq|?]; [|done].
  by rewrite lookup_empty in Hq.
Qed.

Lemma createPackageMap_size_fold packages : ∀ (m : gmap string Package),
  size (fold_left (λ m pkg, <[name pkg := pkg]> m) packages m) ≤ size m + length packages.
Proof.
  induction packages as [|q packages IH]; intros m; simpl; [lia|].
  etrans; [apply IH|].
  destruct (m !! name q) eqn:E.
  - rewrite map_size_insert_Some by eauto. lia.
  - rewrite map_size_insert_None by done. lia.
Qed.

Lemma createPackageMap_size packages :
  size (createPackageMap packages) < traversalFuel packages.
Proof.
  unfold traversalFuel, createPackageMap.
  pose proof (createPackageMap_size_fold packages ∅) as Hs.
  rewrite map_size_empty in Hs. lia.
Qed.

Lemma elem_of_membersOf k packages p :
  p ∈ membersOf k packages ↔ kindOf p = Some k ∧ p ∈ packages.
Proof. unfold membersOf. by rewrite list_elem_of_filter. Qed.

Section wave_rule.
Context `{Semver}.
Variable buildPackages : gmap string Package.
Hypothesis keyed : ∀ k p, buildPackages !! k = Some p → name p = k.

Variable Pre : list Package → Package → State → Prop.
Variable Inv : list Package → State → Prop.
Variable Act : Package → Prop.
Variable Root : Package → Prop.
Hypothesis Hroot : ∀ V r st,
  Root r → wellFormed buildPackages st → Inv V st → Pre (V ++ [r]) r st.
Hypothesis Hlog : ∀ V pkg st, Pre V pkg st → Inv V (logScan pkg st) ∧ Act pkg.
Hypothesis Hadd : ∀ V pkg Y st,
  Inv V st → Act pkg → wellFormed buildPackages st → satisfiedEdge buildPackages pkg Y →
  monoRepo Y = None → Y ∉ packageNeedBump st → Pre V Y (addPackageNeedBump Y st).
Hypothesis Hflag : ∀ V pkg Y st,
  Inv V st → Act pkg → satisfiedEdge buildPackages pkg Y → kindOf Y = Some Server →
  Inv V (setServerNeedBump st).
Hypothesis Hsave : ∀ V pkg d Y v m st,
  Inv V st → Act pkg → d ∈ combinedDependencies pkg →
  buildPackages !! dep_name d = Some Y → recordedFor d Y v →
  saveVersion (depVersions st) (dep_name d) v (monoRepo Y) = Ok m →
  Inv V (setDepVersions m st).

Lemma checkMonoRepoNeedBump_good fuel checkRepo packages : ∀ V st,
  (∀ r, r ∈ packages → kindOf r = Some checkRepo → Root r) →
  size buildPackages < fuel →
  wellFormed buildPackages st → Inv V st →
  match checkMonoRepoNeedBump buildPackages packages fuel checkRepo st with
  | Done _ st' =>
      wellFormed buildPackages st' ∧ Inv (V ++ membersOf checkRepo packages) st'
      ∧ extends st st' ∧ closedSince buildPackages st st'
  | Thrown _ st' =>
      wellFormed buildPackages st'
      ∧ (∃ V', V' `prefix_of` V ++ membersOf checkRepo packages ∧ Inv V' st')
      ∧ extends st st'
  | OutOfFuel => False
  end.
Proof.
  unfold checkMonoRepoNeedBump.
  induction packages as [|r packages IH]; intros V st HR Hfuel Hwf HI.
  - simpl. rewrite app_nil_r. split; [done|]. split; [done|]. split; [apply extends_refl|apply closedSince_refl].
  - simpl. unfold mbind, M_bind, membersOf. rewrite filter_cons.
    fold (membersOf checkRepo packages).
    assert (HR' : ∀ r', r' ∈ packages → kindOf r' = Some checkRepo → Root r')
      by (intros; apply HR; [by right|done]).
    destruct (decide (kindOf r = Some checkRepo)) as [Hk|Hk].
    + pose proof (checkPackageNeedBump_good buildPackages keyed (Pre (V ++ [r]))
                    (Inv (V ++ [r])) Act (Hlog _) (Hadd _) (Hflag _) (Hsave _)
                    fuel r st Hwf (Hroot V r st (HR r ltac:(left) Hk) Hwf HI)
                    ltac:(lia)) as Hone.
      destruct (checkPackageNeedBump buildPackages fuel r st) as [[] s1|e s1|];
        simpl in Hone; [| |done].
      * destruct Hone as (W1 & I1 & E1 & C1).
        specialize (IH (V ++ [r]) s1 HR' Hfuel W1 I1).
        rewrite <- app_assoc in IH. simpl in IH.
        destruct (forEach packages _ s1) as [[] s2|e s2|]; [| |done].
        -- destruct IH as (W2 & I2 & E2 & C2).
           split; [done|]. split; [done|]. split; [by eapply extends_trans|].
           by eapply closedSince_trans.
        -- destruct IH as (W2 & I2 & E2).
           split; [done|]. split; [done|]. by eapply extends_trans.
      * destruct Hone as (W1 & I1 & E1). split; [done|]. split; [|done].
        exists (V ++ [r]). split; [|done].
        exists (membersOf checkRepo packages). by rewrite <- app_assoc.
    + simpl. apply IH; auto.
Qed.
End wave_rule.

(** ** The invariant of the two waves *)

Section traversal_invariant.
Context `{Semver}.
Variable buildPackages : gmap string Package.
Variable R : Package → Prop.

Lemma traversal_root V r st :
  R r → wellFormed buildPackages st → traversalInv buildPackages R V st →
  traversalPre buildPackages R (V ++ [r]) r st.
Proof.
  intros Hr _ [HS HR]. split; [|split; [done|by left]].
  unfold scansAre in HS. rewrite HS, <- !app_assoc.
  apply Permutation_app_head, Permutation_app_comm.
Qed.

Lemma traversal_log V pkg st :
  traversalPre buildPackages R V pkg st →
  traversalInv buildPackages R V (logScan pkg st) ∧ reachable buildPackages R pkg.
Proof.
  intros (HS & HR & Hp). split; [by split|].
  destruct Hp as [?|Hp]; [by left|right; by apply HR].
Qed.

Lemma traversal_add V pkg Y st :
  traversalInv buildPackages R V st → reachable buildPackages R pkg →
  wellFormed buildPackages st → satisfiedEdge buildPackages pkg Y →
  monoRepo Y = None → Y ∉ packageNeedBump st →
  traversalPre buildPackages R V Y (addPackageNeedBump Y st).
Proof.
  intros [HS HR] Hpkg _ Hedge _ _. split; [|split].
  - simpl. unfold scansAre in HS. by rewrite HS, <- app_assoc.
  - intros p [Hp| ->%list_elem_of_singleton]%elem_of_app; [by apply HR|].
    destruct Hpkg as [?|(r & ? & ?)].
    + exists pkg. split; [done|by apply tc_once].
    + exists r. split; [done|]. eapply tc_r; eauto.
  - right. simpl. apply elem_of_app. right. by apply list_elem_of_singleton.
Qed.

Lemma traversal_flag V pkg Y st :
  traversalInv buildPackages R V st → reachable buildPackages R pkg →
  satisfiedEdge buildPackages pkg Y → kindOf Y = Some Server →
  traversalInv buildPackages R V (setServerNeedBump st).
Proof. done. Qed.

Lemma traversal_save V pkg d Y v (m : gmap string string) st :
  traversalInv buildPackages R V st → reachable buildPackages R pkg →
  d ∈ combinedDependencies pkg → buildPackages !! dep_name d = Some Y →
  recordedFor d Y v →
  saveVersion (depVersions st) (dep_name d) v (monoRepo Y) = Ok m →
  traversalInv buildPackages R V (setDepVersions m st).
Proof. done. Qed.

Hypothesis keyed : ∀ k p, buildPackages !! k = Some p → name p = k.

Lemma wave_good fuel checkRepo packages V st :
  (∀ r, r ∈ packages → kindOf r = Some checkRepo → R r) →
  size buildPackages < fuel →
  wellFormed buildPackages st → traversalInv buildPackages R V st →
  match checkMonoRepoNeedBump buildPackages packages fuel checkRepo st with
  | Done _ st' =>
      wellFormed buildPackages st'
      ∧ traversalInv buildPackages R (V ++ membersOf checkRepo packages) st'
      ∧ extends st st' ∧ closedSince buildPackages st st'
  | Thrown _ st' =>
      wellFormed buildPackages st'
      ∧ (∃ V', V' `prefix_of` V ++ membersOf checkRepo packages
               ∧ traversalInv buildPackages R V' st')
      ∧ extends st st'
  | OutOfFuel => False
  end.
Proof.
  apply (checkMonoRepoNeedBump_good buildPackages keyed
           (traversalPre buildPackages R) (traversalInv buildPackages R)
           (reachable buildPackages R) R
           traversal_root traversal_log traversal_add traversal_flag traversal_save).
Qed.
End traversal_invariant.

(** ** The decision as a whole *)

Section decision.
Context `{Semver}.
Variable packages : list Package.

Let buildPackages := createPackageMap packages.

Lemma createPackageMap_keyed k p : buildPackages !! k = Some p → name p = k.
Proof. intros Hk. by apply createPackageMap_lookup in Hk as [? _]. Qed.

Lemma bumpDecision_unfold :
  bumpDecision packages
  = match checkMonoRepoNeedBump buildPackages packages (traversalFuel packages)
            Client initialState with
    | Done _ s1 =>
        if serverNeedBump s1
        then checkMonoRepoNeedBump buildPackages packages (traversalFuel packages) Server s1
        else Done tt s1
    | Thrown e s1 => Thrown e s1
    | OutOfFuel => OutOfFuel
    end.
Proof.
  unfold bumpDecision, checkNeedBump, mbind, M_bind, gets, mret, M_ret.
  fold buildPackages.
  destruct (checkMonoRepoNeedBump buildPackages packages _ Client initialState)
    as [[] s1|e s1|]; try done.
  destruct (serverNeedBump s1); done.
Qed.

Lemma clientWave_good :
  match checkMonoRepoNeedBump buildPackages packages (traversalFuel packages)
          Client initialState with
  | Done _ s1 =>
      wellFormed buildPackages s1
      ∧ traversalInv buildPackages (λ r, r ∈ membersOf Client packages)
          (membersOf Client packages) s1
      ∧ (∀ X, X ∈ scanned s1 → closed buildPackages X s1)
  | Thrown _ s1 =>
      wellFormed buildPackages s1
      ∧ ∃ V', V' `prefix_of` membersOf Client packages ∧ scansAre V' s1
  | OutOfFuel => False
  end.
Proof.
  pose proof (wave_good buildPackages (λ r, r ∈ membersOf Client packages)
                createPackageMap_keyed (traversalFuel packages) Client packages []
                initialState) as Hw.
  assert (W0 : wellFormed buildPackages initialState).
  { split; [apply NoDup_nil_2|]. intros p Hp. by apply elem_of_nil in Hp. }
  assert (I0 : traversalInv buildPackages (λ r, r ∈ membersOf Client packages)
                 [] initialState).
  { split; [unfold scansAre; reflexivity|]. intros p Hp. by apply elem_of_nil in Hp. }
  specialize (Hw ltac:(by intros r Hr Hk; apply elem_of_membersOf)
                 (createPackageMap_size packages) W0 I0).
  simpl in Hw.
  destruct (checkMonoRepoNeedBump buildPackages packages _ Client initialState)
    as [[] s1|e s1|]; [| |done].
  - destruct Hw as (W & I & E & C).
    split; [done|]. split; [done|].
    intros X HX. destruct (C X HX) as [HX'|]; [|done]. by apply elem_of_nil in HX'.
  - destruct Hw as (W & (V' & HV & I & _) & E). eauto.
Qed.

Lemma reachedFrom_weaken (R R' : Package → Prop) st :
  (∀ r, R r → R' r) → reachedFrom buildPackages R st → reachedFrom buildPackages R' st.
Proof. intros HR Hst p Hp. destruct (Hst p Hp) as (r & ? & ?). eauto. Qed.

Lemma serverWave_good s1 :
  wellFormed buildPackages s1 →
  traversalInv buildPackages (λ r, r ∈ membersOf Client packages)
    (membersOf Client packages) s1 →
  (∀ X, X ∈ scanned s1 → closed buildPackages X s1) →
  match checkMonoRepoNeedBump buildPackages packages (traversalFuel packages)
          Server s1 with
  | Done _ st =>
      wellFormed buildPackages st
      ∧ traversalInv buildPackages
          (λ r, r ∈ membersOf Client packages ++ membersOf Server packages)
          (membersOf Client packages ++ membersOf Server packages) st
      ∧ (∀ X, X ∈ scanned st → closed buildPackages X st)
      ∧ extends s1 st
  | Thrown _ st =>
      wellFormed buildPackages st
      ∧ ∃ V', V' `prefix_of` membersOf Client packages ++ membersOf Server packages
              ∧ scansAre V' st
  | OutOfFuel => False
  end.
Proof.
  intros W1 [S1 R1] C1.
  pose proof (wave_good buildPackages
                (λ r, r ∈ membersOf Client packages ++ membersOf Server packages)
                createPackageMap_keyed (traversalFuel packages) Server packages
                (membersOf Client packages) s1) as Hw.
  assert (Hroots : ∀ r, r ∈ packages → kindOf r = Some Server →
                        r ∈ membersOf Client packages ++ membersOf Server packages).
  { intros r Hr Hk. apply elem_of_app. right. by apply elem_of_membersOf. }
  assert (I1 : traversalInv buildPackages
                 (λ r, r ∈ membersOf Client packages ++ membersOf Server packages)
                 (membersOf Client packages) s1).
  { split; [done|]. eapply reachedFrom_weaken; [|done].
    intros r Hr. apply elem_of_app. by left. }
  specialize (Hw Hroots (createPackageMap_size packages) W1 I1).
  destruct (checkMonoRepoNeedBump buildPackages packages _ Server s1) as [[] st|e st|].
  - destruct Hw as (W & I & E & C). split; [done|]. split; [done|]. split; [|done].
    intros X HX. destruct (C X HX) as [HX'|]; [|done].
    eapply closed_extends; eauto.
  - destruct Hw as (W & (V' & HV & I & _) & E). eauto.
  - done.
Qed.

Lemma roots_members st r :
  r ∈ roots packages st → r ∈ packages ∧ is_Some (monoRepo r).
Proof.
  unfold roots. intros [Hr|Hr]%elem_of_app.
  - apply elem_of_membersOf in Hr as [Hk ?]. split; [done|].
    unfold kindOf in Hk. destruct (monoRepo r); [eauto|done].
  - destruct (serverNeedBump st); [|by apply elem_of_nil in Hr].
    apply elem_of_membersOf in Hr as [Hk ?]. split; [done|].
    unfold kindOf in Hk. destruct (monoRepo r); [eauto|done].
Qed.

(** What every run of the decision establishes. *)
Lemma bumpDecision_good :
  match bumpDecision packages with
  | Done _ st =>
      wellFormed buildPackages st
      ∧ scansAre (roots packages st) st
      ∧ reachedFrom buildPackages (λ r, r ∈ roots packages st) st
      ∧ (∀ X, X ∈ scanned st → closed buildPackages X st)
  | Thrown _ st =>
      wellFormed buildPackages st
      ∧ ∃ V', V' `prefix_of` membersOf Client packages ++ membersOf Server packages
              ∧ scansAre V' st
  | OutOfFuel => False
  end.
Proof.
  rewrite bumpDecision_unfold.
  pose proof clientWave_good as H1.
  destruct (checkMonoRepoNeedBump buildPackages packages _ Client initialState)
    as [[] s1|e s1|]; [| |done].
  - destruct H1 as (W1 & I1 & C1).
    destruct (serverNeedBump s1) eqn:Eflag.
    + pose proof (serverWave_good s1 W1 I1 C1) as H2.
      destruct (checkMonoRepoNeedBump buildPackages packages _ Server s1)
        as [[] st|e st|]; [| |done].
      * destruct H2 as (W & [S R] & C & E).
        assert (serverNeedBump st = true) as Hflag by by apply E.
        unfold roots. rewrite Hflag. done.
      * done.
    + unfold roots. rewrite Eflag, app_nil_r. destruct I1 as [S R]. done.
  - destruct H1 as (W & V' & HV & S). split; [done|]. exists V'. split; [|done].
    by apply prefix_app_r.
Qed.

(** One satisfied edge from a root or from a member of the BumpSet. *)
Lemma decision_step st X Y :
  bumpDecision packages = Done tt st →
  X ∈ roots packages st ∨ X ∈ packageNeedBump st →
  satisfiedEdge buildPackages X Y →
  handled Y st ∧ (Y ∈ roots packages st ∨ Y ∈ packageNeedBump st).
Proof.
  intros Hrun HX Hedge. pose proof bumpDecision_good as Hgood.
  rewrite Hrun in Hgood. destruct Hgood as (_ & Hscans & _ & Hclosed).
  assert (HXs : X ∈ scanned st).
  { unfold scansAre in Hscans. rewrite Hscans. apply elem_of_app. tauto. }
  pose proof (Hclosed X HXs Y Hedge) as Hhandled. split; [done|].
  destruct Hhandled as [Hnone Hserver].
  destruct Hedge as (d & _ & HY & _).
  apply createPackageMap_lookup in HY as [_ HY].
  destruct (monoRepo Y) as [mr|] eqn:EM; [left|right; by apply Hnone].
  unfold roots. apply elem_of_app.
  destruct (kind mr) eqn:Ek.
  - left. apply elem_of_membersOf. split; [|done].
    unfold kindOf. rewrite EM. simpl. by rewrite Ek.
  - right. rewrite Hserver by (unfold kindOf; rewrite EM; simpl; by rewrite Ek).
    apply elem_of_membersOf. split; [|done].
    unfold kindOf. rewrite EM. simpl. by rewrite Ek.
Qed.


End decision.

(** ** More fuel changes nothing *)

Lemma forEach_more {A} (f f' : A → M unit) (l : list A) : ∀ s,
  (∀ x s, f x s ≠ OutOfFuel → f' x s = f x s) →
  forEach l f s ≠ OutOfFuel → forEach l f' s = forEach l f s.
Proof.
  induction l as [|x l IH]; intros s Hf Hs; simpl in *; [done|].
  unfold mbind, M_bind in *.
  destruct (f x s) as [[] s1|e s1|] eqn:E; [| |done].
  - rewrite (Hf x s), E by (by rewrite E). by apply IH.
  - by rewrite (Hf x s), E by (by rewrite E).
Qed.

Section more_fuel.
Context `{Semver}.
Variable buildPackages : gmap string Package.

Lemma checkDependency_more recur recur' d s :
  (∀ Y s, recur Y s ≠ OutOfFuel → recur' Y s = recur Y s) →
  checkDependency buildPackages recur d s ≠ OutOfFuel →
  checkDependency buildPackages recur' d s = checkDependency buildPackages recur d s.
Proof.
  intros Hr. unfold checkDependency.
  destruct (buildPackages !! dep_name d) as [Y|]; [|done].
  destruct (semver_satisfies (version Y) (dep_range d)) as [[|]|e]; [|done..].
  destruct (monoRepo Y) as [mr|]; [done|].
  unfold mbind, M_bind, liftResult, mret, M_ret, modify, gets; simpl.
  case_bool_decide; [done|].
  destruct (recur Y (addPackageNeedBump Y s)) as [[] s1|e s1|] eqn:E; [| |done].
  - intros _. by rewrite (Hr Y _), E by (by rewrite E).
  - intros _. by rewrite (Hr Y _), E by (by rewrite E).
Qed.

Lemma checkPackageNeedBump_S fuel : ∀ pkg s,
  checkPackageNeedBump buildPackages fuel pkg s ≠ OutOfFuel →
  checkPackageNeedBump buildPackages (S fuel) pkg s
  = checkPackageNeedBump buildPackages fuel pkg s.
Proof.
  induction fuel as [|n IH]; intros pkg s Hs; [done|].
  change (checkPackageNeedBump buildPackages (S (S n)) pkg s)
    with (forEach (combinedDependencies pkg)
            (checkDependency buildPackages (checkPackageNeedBump buildPackages (S n)))
            (logScan pkg s)).
  change (checkPackageNeedBump buildPackages (S n) pkg s)
    with (forEach (combinedDependencies pkg)
            (checkDependency buildPackages (checkPackageNeedBump buildPackages n))
            (logScan pkg s)) in *.
  apply forEach_more; [|done].
  intros d s'. by apply checkDependency_more.
Qed.

Lemma checkPackageNeedBump_more fuel fuel' pkg s :
  fuel ≤ fuel' →
  checkPackageNeedBump buildPackages fuel pkg s ≠ OutOfFuel →
  checkPackageNeedBump buildPackages fuel' pkg s
  = checkPackageNeedBump buildPackages fuel pkg s.
Proof.
  induction 1 as [|m Hle IH]; intros Hs; [done|].
  rewrite <- (IH Hs). apply checkPackageNeedBump_S. by rewrite (IH Hs).
Qed.

Lemma checkMonoRepoNeedBump_more packages fuel fuel' checkRepo s :
  fuel ≤ fuel' →
  checkMonoRepoNeedBump buildPackages packages fuel checkRepo s ≠ OutOfFuel →
  checkMonoRepoNeedBump buildPackages packages fuel' checkRepo s
  = checkMonoRepoNeedBump buildPackages packages fuel checkRepo s.
Proof.
  intros Hle. unfold checkMonoRepoNeedBump. apply forEach_more.
  intros pkg s'. destruct (decide (kindOf pkg = Some checkRepo)); [|done].
  by apply checkPackageNeedBump_more.
Qed.

Lemma checkNeedBump_more packages fuel fuel' s :
  fuel ≤ fuel' →
  checkNeedBump buildPackages packages fuel s ≠ OutOfFuel →
  checkNeedBump buildPackages packages fuel' s = checkNeedBump buildPackages packages fuel s.
Proof.
  intros Hle. unfold checkNeedBump, mbind, M_bind, gets, mret, M_ret.
  destruct (checkMonoRepoNeedBump buildPackages packages fuel Client s)
    as [[] s1|e s1|] eqn:E1; [| |done].
  - rewrite (checkMonoRepoNeedBump_more packages fuel fuel' Client s Hle), E1
      by (by rewrite E1).
    destruct (serverNeedBump s1); [|done].
    by apply checkMonoRepoNeedBump_more.
  - by rewrite (checkMonoRepoNeedBump_more packages fuel fuel' Client s Hle), E1
      by (by rewrite E1).
Qed.
End more_fuel.

(** ** The ghost log influences nothing *)

Lemma forEach_sameOutcome {A} (f : A → M unit) (l : list A) : ∀ s s',
  (∀ x s s', sameButScans s s' → sameOutcome (f x s) (f x s')) →
  sameButScans s s' → sameOutcome (forEach l f s) (forEach l f s').
Proof.
  induction l as [|x l IH]; intros s s' Hf Hs; simpl; [done|].
  unfold mbind, M_bind. specialize (Hf x s s' Hs) as Hx.
  destruct (f x s) as [[] s1|e s1|], (f x s') as [[] s1'|e' s1'|]; try done.
  destruct Hx as [_ Hx]. by apply IH.
Qed.

Section ghost_log.
Context `{Semver}.
Variable buildPackages : gmap string Package.

Lemma checkDependency_sameOutcome recur d s s' :
  (∀ Y s s', sameButScans s s' → sameOutcome (recur Y s) (recur Y s')) →
  sameButScans s s' →
  sameOutcome (checkDependency buildPackages recur d s)
    (checkDependency buildPackages recur d s').
Proof.
  intros Hr (Hset & Hflag & Hdep).
  assert (Hsave : ∀ v mr s1 s1', sameButScans s1 s1' →
            sameOutcome (saveDepVersion (dep_name d) v mr s1)
              (saveDepVersion (dep_name d) v mr s1')).
  { intros v mr s1 s1' (? & ? & Hd). unfold saveDepVersion. rewrite Hd.
    by destruct (saveVersion _ _ _ _). }
  unfold checkDependency.
  destruct (buildPackages !! dep_name d) as [Y|]; [|done].
  destruct (semver_satisfies (version Y) (dep_range d)) as [[|]|e]; [| |done].
  - destruct (monoRepo Y) as [mr|].
    + unfold mbind, M_bind, liftResult, mret, M_ret, modify; simpl.
      destruct (decide (kind mr = Server)); simpl; by apply Hsave.
    + unfold mbind, M_bind, liftResult, mret, M_ret, modify, gets; simpl.
      rewrite Hset. case_bool_decide; [by apply Hsave|].
      assert (Hadd : sameButScans (addPackageNeedBump Y s) (addPackageNeedBump Y s')).
      { repeat split; simpl; congruence. }
      specialize (Hr Y _ _ Hadd).
      destruct (recur Y (addPackageNeedBump Y s)) as [[] s1|e s1|],
        (recur Y (addPackageNeedBump Y s')) as [[] s1'|e' s1'|]; try done.
      destruct Hr as [_ Hr]. by apply Hsave.
  - unfold mbind, M_bind, liftResult, mret, M_ret, throw; simpl.
    destruct (semver_minVersion (dep_range d)) as [[v|]|e]; simpl; try done.
    by apply Hsave.
Qed.

Lemma checkPackageNeedBump_sameOutcome fuel : ∀ pkg s s',
  sameButScans s s' →
  sameOutcome (checkPackageNeedBump buildPackages fuel pkg s)
    (checkPackageNeedBump buildPackages fuel pkg s').
Proof.
  induction fuel as [|n IH]; intros pkg s s' Hs; [done|].
  simpl. unfold mbind, M_bind, modify.
  apply forEach_sameOutcome; [|done].
  intros d s1 s1'. by apply checkDependency_sameOutcome.
Qed.

Lemma checkMonoRepoNeedBump_sameOutcome packages fuel checkRepo s s' :
  sameButScans s s' →
  sameOutcome (checkMonoRepoNeedBump buildPackages packages fuel checkRepo s)
    (checkMonoRepoNeedBump buildPackages packages fuel checkRepo s').
Proof.
  unfold checkMonoRepoNeedBump. apply forEach_sameOutcome.
  intros pkg s1 s1' Hs. destruct (decide (kindOf pkg = Some checkRepo)); [|done].
  by apply checkPackageNeedBump_sameOutcome.
Qed.

Lemma checkNeedBump_sameOutcome packages fuel s s' :
  sameButScans s s' →
  sameOutcome (checkNeedBump buildPackages packages fuel s)
    (checkNeedBump buildPackages packages fuel s').
Proof.
  intros Hs. unfold checkNeedBump, mbind, M_bind, gets, mret, M_ret.
  pose proof (checkMonoRepoNeedBump_sameOutcome packages fuel Client s s' Hs) as H1.
  destruct (checkMonoRepoNeedBump buildPackages packages fuel Client s) as [[] s1|e s1|],
    (checkMonoRepoNeedBump buildPackages packages fuel Client s') as [[] s1'|e' s1'|];
    try done.
  destruct H1 as [_ H1]. pose proof H1 as (_ & Hflag & _). rewrite Hflag.
  destruct (serverNeedBump s1'); [|done].
  by apply checkMonoRepoNeedBump_sameOutcome.
Qed.
End ghost_log.

(** ** Scans without repetition *)

Lemma membersOf_NoDup k packages : NoDup packages → NoDup (membersOf k packages).
Proof. apply NoDup_filter. Qed.

Lemma allRoots_NoDup packages :
  NoDup packages → NoDup (membersOf Client packages ++ membersOf Server packages).
Proof.
  intros Hnd. apply NoDup_app. split; [by apply membersOf_NoDup|].
  split; [|by apply membersOf_NoDup].
  intros p [Hc _]%elem_of_membersOf [Hs _]%elem_of_membersOf. congruence.
Qed.

Lemma scansAre_NoDup `{Semver} buildPackages V st :
  wellFormed buildPackages st → scansAre V st →
  NoDup V → (∀ r, r ∈ V → is_Some (monoRepo r)) → NoDup (scanned st).
Proof.
  intros [Hnd Hin] HS HV Hmono. unfold scansAre in HS. rewrite HS.
  apply NoDup_app. split; [done|]. split; [|by apply NoDup_fmap_1 in Hnd].
  intros p Hp Hp'. destruct (Hmono p Hp) as [mr Hmr].
  destruct (Hin p Hp') as [_ Hnone]. congruence.
Qed.

(** * The properties of the specification *)

(** ** The version map *)

(** C5, as stated, fails: the key [Client] holds 1.0.0 and the different
    version 2.0.0 is recorded for a member of the Client group whose name
    has the exclusion prefix; the record does not fail and the map keeps
    1.0.0. *)
Lemma saveVersion_conflict_of_excluded_member :
  ({["Client" := "1.0.0"]} : gmap string string)
    !! MonoRepoKind_name (kind Registry.clientRepo) = Some "1.0.0"
  ∧ "1.0.0" ≠ "2.0.0"
  ∧ saveVersion {["Client" := "1.0.0"]} (name Registry.versionTest)
      (version Registry.versionTest) (monoRepo Registry.versionTest)
    = Ok {["Client" := "1.0.0"]}.
Proof. split; [by vm_compute|]. split; [discriminate|by vm_compute]. Qed.

(** C5, amended: when the group key already holds a version, recording
    that same version succeeds and leaves the map as it is; recording a
    different one for a package whose name lacks the exclusion prefix,
    over a held version that is not the empty string, throws the
    inconsistent-version error. *)
Theorem saveVersion_group_consistency versions name version mr held :
  versions !! MonoRepoKind_name (kind mr) = Some held →
  (held = version → saveVersion versions name version (Some mr) = Ok versions)
  ∧ (String.prefix exclusionPrefix name = false → held ≠ EmptyString → held ≠ version →
     saveVersion versions name version (Some mr)
     = Throw (JsError (inconsistentMessage name version))).
Proof.
  intros Hheld. split.
  - intros ->. by apply saveVersion_Some_same.
  - intros. by eapply saveVersion_Some_conflict.
Qed.

Lemma saveVersion_group_consistency_witness :
  saveVersion {["Client" := "1.0.0"]} "core" "1.0.0" (Some Registry.clientRepo)
  = Ok {["Client" := "1.0.0"]}
  ∧ saveVersion {["Client" := "1.0.0"]} "core" "2.0.0" (Some Registry.clientRepo)
    = Throw (JsError "Inconsistent version within Monorepo core 2.0.0").
Proof.
  split.
  - apply (saveVersion_group_consistency {["Client" := "1.0.0"]} "core" "1.0.0"
             Registry.clientRepo "1.0.0"); reflexivity.
  - apply (saveVersion_group_consistency {["Client" := "1.0.0"]} "core" "2.0.0"
             Registry.clientRepo "1.0.0"); [reflexivity|reflexivity|discriminate..].
Defined.

(** C6, as stated, fails: a standalone package already recorded with
    0.5.0 is recorded again with 0.6.0; nothing fails, the entry is
    overwritten. *)
Lemma saveVersion_standalone_conflict :
  ({["tool" := "0.5.0"]} : gmap string string) !! "tool" = Some "0.5.0"
  ∧ saveVersion {["tool" := "0.5.0"]} "tool" "0.6.0" None = Ok {["tool" := "0.6.0"]}.
Proof. split; by vm_compute. Qed.

(** C6, amended: recording a standalone package never fails.  Under
    every name but [__proto__] the version is written under the package's
    name, over whatever was there, and the rest of the map is left as it
    was; under the name [__proto__] the assignment stores nothing and the
    whole map is left as it was. *)
Theorem saveVersion_standalone_overwrites versions name version :
  ∃ versions', saveVersion versions name version None = Ok versions'
               ∧ (name ≠ protoKey →
                  versions' !! name = Some version
                  ∧ delete name versions' = delete name versions)
               ∧ (name = protoKey → versions' = versions).
Proof.
  exists (assign versions name version). split; [done|]. split.
  - intros Hname. rewrite assign_ne by done. split.
    + apply lookup_insert_eq.
    + apply delete_insert_eq.
  - intros ->. apply assign_proto.
Qed.

(** C7, as stated, fails: a standalone package whose name has the
    exclusion prefix is written into the map. *)
Lemma saveVersion_excluded_standalone :
  String.prefix exclusionPrefix "@fluid-example/version-test-1" = true
  ∧ saveVersion ∅ "@fluid-example/version-test-1" "2.0.0" None
    = Ok {["@fluid-example/version-test-1" := "2.0.0"]}.
Proof. split; by vm_compute. Qed.

(** C7, amended: a member of a mono-repo group whose name has the
    exclusion prefix is skipped, the map is left as it is; a standalone
    package of such a name is recorded under its name like any other. *)
Theorem saveVersion_exclusion versions name version :
  String.prefix exclusionPrefix name = true →
  (∀ mr, saveVersion versions name version (Some mr) = Ok versions)
  ∧ saveVersion versions name version None = Ok (<[name := version]> versions).
Proof.
  intros Hname. split.
  - intros mr. by apply saveVersion_Some_excluded.
  - rewrite saveVersion_None. by rewrite assign_ne by by apply excluded_not_proto.
Qed.

Lemma saveVersion_exclusion_witness :
  (∀ mr, saveVersion {["Client" := "1.0.0"]} "@fluid-example/version-test-1" "2.0.0"
           (Some mr) = Ok {["Client" := "1.0.0"]})
  ∧ saveVersion {["Client" := "1.0.0"]} "@fluid-example/version-test-1" "2.0.0" None
    = Ok (<["@fluid-example/version-test-1" := "2.0.0"]> {["Client" := "1.0.0"]}).
Proof.
  apply (saveVersion_exclusion {["Client" := "1.0.0"]}
           "@fluid-example/version-test-1" "2.0.0").
  reflexivity.
Defined.

(** ** The bump decision *)

(** C1, as stated, fails: [logger] ends up in the BumpSet, and no chain
    of satisfied edges leads to it from a member of the Client group (the
    only one, [app], depends on [service] alone, which depends on
    nothing): it is a dependency of [gateway], scanned in the Server
    wave. *)
Lemma bumpSet_beyond_client_reach :
  packageNeedBump <$> finalState (@bumpDecision Caret.semver Registry.twoWaves)
  = Some [Registry.logger]
  ∧ ¬ ∃ r, r ∈ membersOf Client Registry.twoWaves
           ∧ tc (@satisfiedEdge Caret.semver (createPackageMap Registry.twoWaves))
                r Registry.logger.
Proof.
  split; [by vm_compute|].
  intros (r & Hr & Hreach).
  assert (r = Registry.app) as ->.
  { vm_compute in Hr. by apply list_elem_of_singleton in Hr. }
  assert (Hservice : ∀ Y, ¬ @satisfiedEdge Caret.semver
                              (createPackageMap Registry.twoWaves) Registry.service Y).
  { intros Y (d & Hd & _). simpl in Hd. by apply elem_of_nil in Hd. }
  assert (Happ : ∀ Y, @satisfiedEdge Caret.semver
                        (createPackageMap Registry.twoWaves) Registry.app Y →
                      Y = Registry.service).
  { intros Y (d & Hd & HY & _). simpl in Hd. apply list_elem_of_singleton in Hd as ->.
    vm_compute in HY. by injection HY as <-. }
  inversion Hreach as [? ? Hedge|? Y ? Hedge Hrest]; subst.
  - apply Happ in Hedge. discriminate.
  - apply Happ in Hedge as ->.
    inversion Hrest as [? ? Hedge|? Y ? Hedge _]; subst; by apply Hservice in Hedge.
Qed.

(** C1, amended: after a traversal that ends normally, the BumpSet is
    exactly the set of standalone packages that chains of satisfied
    dependency edges reach from the roots of the traversal: the members of
    the Client group and, when [serverNeedBump] has been set, also the
    members of the Server group. *)
Theorem bumpSet_exact `{Semver} packages st :
  bumpDecision packages = Done tt st →
  ∀ P, P ∈ packageNeedBump st
       ↔ standalone P
         ∧ ∃ r, r ∈ roots packages st
                ∧ tc (satisfiedEdge (createPackageMap packages)) r P.
Proof.
  intros Hrun P. pose proof (bumpDecision_good packages) as Hgood.
  rewrite Hrun in Hgood. destruct Hgood as ([Hnd Hin] & Hscans & Hreached & Hclosed).
  split.
  - intros HP. split; [by apply Hin|by apply Hreached].
  - intros [Hstandalone (r & Hr & Hreach)].
    assert (Hstep : ∀ X Y,
              X ∈ roots packages st ∨ X ∈ packageNeedBump st →
              satisfiedEdge (createPackageMap packages) X Y →
              Y ∈ roots packages st ∨ Y ∈ packageNeedBump st).
    { intros X Y HX Hedge.
      assert (HXs : X ∈ scanned st).
      { unfold scansAre in Hscans. rewrite Hscans. apply elem_of_app. tauto. }
      destruct (Hclosed X HXs Y Hedge) as [Hnone Hserver].
      destruct Hedge as (d & _ & HY & _).
      apply createPackageMap_lookup in HY as [_ HY].
      destruct (monoRepo Y) as [mr|] eqn:EM; [left|right; by apply Hnone].
      unfold roots. apply elem_of_app.
      destruct (kind mr) eqn:Ek.
      - left. apply elem_of_membersOf. split; [|done].
        unfold kindOf. rewrite EM. simpl. by rewrite Ek.
      - right. rewrite Hserver by (unfold kindOf; rewrite EM; simpl; by rewrite Ek).
        apply elem_of_membersOf. split; [|done].
        unfold kindOf. rewrite EM. simpl. by rewrite Ek. }
    assert (Hall : P ∈ roots packages st ∨ P ∈ packageNeedBump st).
    { assert (Hr' : r ∈ roots packages st ∨ r ∈ packageNeedBump st) by by left.
      clear Hr. induction Hreach as [X Y Hedge|X Y Z Hedge _ IH]; eauto. }
    destruct Hall as [HP|HP]; [|done].
    apply roots_members in HP as [_ [mr Hmr]]. unfold standalone in Hstandalone. congruence.
Qed.

Lemma bumpSet_exact_witness :
  @bumpDecision Caret.semver Registry.twoWaves
  = Done tt (default initialState (finalState (@bumpDecision Caret.semver Registry.twoWaves)))
  ∧ ∀ P, P ∈ packageNeedBump
               (default initialState (finalState (@bumpDecision Caret.semver Registry.twoWaves)))
         ↔ standalone P
           ∧ ∃ r, r ∈ roots Registry.twoWaves
                        (default initialState
                           (finalState (@bumpDecision Caret.semver Registry.twoWaves)))
                  ∧ tc (@satisfiedEdge Caret.semver (createPackageMap Registry.twoWaves)) r P.
Proof.
  split; [by vm_compute|].
  apply (@bumpSet_exact Caret.semver Registry.twoWaves). by vm_compute.
Defined.

(** C2: on every registry, cyclic or not, the traversal stops without
    having exhausted its fuel, and more fuel gives the same run; in the
    state it stops in, normally or by a throw, no package is twice in the
    BumpSet, and no package of a registry without repeated entries has
    been scanned twice. *)
Theorem traversal_terminates `{Semver} packages :
  ∃ st, finalState (bumpDecision packages) = Some st
        ∧ (∀ fuel, traversalFuel packages ≤ fuel →
             checkNeedBump (createPackageMap packages) packages fuel initialState
             = bumpDecision packages)
        ∧ NoDup (packageNeedBump st)
        ∧ (NoDup packages → NoDup (scanned st)).
Proof.
  pose proof (bumpDecision_good packages) as Hgood.
  assert (Hmore : ∀ fuel, traversalFuel packages ≤ fuel →
             checkNeedBump (createPackageMap packages) packages fuel initialState
             = bumpDecision packages).
  { intros fuel Hle. apply checkNeedBump_more; [done|].
    fold (bumpDecision packages). by destruct (bumpDecision packages). }
  destruct (bumpDecision packages) as [[] st|e st|]; [| |done]; exists st.
  - destruct Hgood as (Hwf & Hscans & _ & _).
    split; [done|]. split; [done|]. split; [destruct Hwf as [Hn _]; by apply NoDup_fmap_1 in Hn|].
    intros Hnd. eapply scansAre_NoDup; eauto.
    + unfold roots. destruct (serverNeedBump st); [by apply allRoots_NoDup|].
      rewrite app_nil_r. by apply membersOf_NoDup.
    + intros r Hr. by apply roots_members in Hr as [_ ?].
  - destruct Hgood as (Hwf & V' & Hpre & Hscans).
    split; [done|]. split; [done|]. split; [destruct Hwf as [Hn _]; by apply NoDup_fmap_1 in Hn|].
    intros Hnd. eapply scansAre_NoDup; eauto.
    + pose proof (allRoots_NoDup packages Hnd) as Hall.
      destruct Hpre as [k Hk]. rewrite Hk in Hall. by apply NoDup_app in Hall as [? _].
    + intros r Hr.
      assert (Hr' : r ∈ membersOf Client packages ++ membersOf Server packages).
      { destruct Hpre as [k ->]. apply elem_of_app. by left. }
      apply elem_of_app in Hr' as [[Hk _]%elem_of_membersOf|[Hk _]%elem_of_membersOf];
        unfold kindOf in Hk; destruct (monoRepo r); eauto; done.
Qed.

Lemma traversal_terminates_witness :
  NoDup Registry.cyclic
  ∧ ∃ st, finalState (@bumpDecision Caret.semver Registry.cyclic) = Some st
          ∧ NoDup (packageNeedBump st) ∧ NoDup (scanned st).
Proof.
  assert (Hnd : NoDup Registry.cyclic).
  { apply (bool_decide_unpack _). by vm_compute. }
  split; [exact Hnd|].
  destruct (@traversal_terminates Caret.semver Registry.cyclic) as (st & Hst & _ & Hset & Hscan).
  exists st. split; [exact Hst|]. split; [exact Hset|]. exact (Hscan Hnd).
Defined.



(** C8, as stated, fails: on the registry of the scenario the BumpSet is
    not [{tool}]. *)
Lemma scenario_bumpSet_is_not_tool :
  packageNeedBump <$> finalState (@bumpDecision Caret.semver Registry.scenario)
  ≠ Some [Registry.tool].
Proof. vm_compute. discriminate. Qed.

(** C8, amended: on the registry of the scenario, with any semver
    primitive for which 1.2.0 satisfies ^1.0.0, the traversal from the
    Client group ends normally with an empty BumpSet and [serverNeedBump]
    unset; all it records is the version of the Client group.  ([tool]
    depends on [core]; nothing in the Client group depends on [tool].) *)
Theorem scenario_decision (S : Semver) :
  semver_satisfies "1.2.0" "^1.0.0" = Ok true →
  ∃ st, bumpDecision Registry.scenario = Done tt st
        ∧ packageNeedBump st = [] ∧ serverNeedBump st = false
        ∧ depVersions st = {["Client" := "1.2.0"]}.
Proof.
  destruct S as [sat minv]. simpl. intros Hsat.
  eexists. split.
  - vm_compute. vm_compute in Hsat. rewrite Hsat. vm_compute. reflexivity.
  - vm_compute. done.
Qed.

Lemma scenario_decision_witness :
  ∃ st, @bumpDecision Caret.semver Registry.scenario = Done tt st
        ∧ packageNeedBump st = [] ∧ serverNeedBump st = false
        ∧ depVersions st = {["Client" := "1.2.0"]}.
Proof. apply (scenario_decision Caret.semver). reflexivity. Defined.

(** ** One dependency whose range is not satisfied *)

(** C3, as stated, fails: the dependency resolves to a member of the
    Client group at 2.0.0, the declared range ^1.0.0 is not satisfied and
    its minimum is 1.0.0, but the name has the exclusion prefix: the
    dependency-versions map stays empty. *)
Lemma unsatisfied_edge_to_excluded_member :
  let buildPackages := createPackageMap [Registry.versionTest] in
  let d := mkDependency "@fluid-example/version-test-1" "^1.0.0" false in
  buildPackages !! dep_name d = Some Registry.versionTest
  ∧ Caret.satisfies (version Registry.versionTest) (dep_range d) = Ok false
  ∧ Caret.minVersion (dep_range d) = Ok (Some "1.0.0")
  ∧ depVersions <$> finalState
      (checkDependency (H := Caret.semver) buildPackages
         (checkPackageNeedBump (H := Caret.semver) buildPackages 1) d initialState)
    = Some ∅.
Proof. repeat split; by vm_compute. Qed.

(** C3, amended: for a dependency that resolves in the registry, whose
    current version does not satisfy the declared range and for whose
    range [minVersion] returns a version, the step is the record of that
    minimum (not of the current version) into the dependency-versions
    map, and it changes neither the BumpSet nor the flag.  So a standalone
    dependency then holds the minimum under its name, unless that name is
    [__proto__], under which nothing is stored; a group member whose
    name lacks the exclusion prefix holds it under the group key if no
    version was held there, and the step throws the inconsistent-version
    error if a different one was; a group member whose name has the
    exclusion prefix is not recorded at all. *)
Theorem unsatisfied_edge_records_minimum `{Semver} buildPackages recur d Y minimum st :
  buildPackages !! dep_name d = Some Y →
  semver_satisfies (version Y) (dep_range d) = Ok false →
  semver_minVersion (dep_range d) = Ok (Some minimum) →
  let o := checkDependency buildPackages recur d st in
  let key := λ mr, MonoRepoKind_name (kind mr) in
  o = saveDepVersion (dep_name d) minimum (monoRepo Y) st
  ∧ (∀ st', finalState o = Some st' →
            packageNeedBump st' = packageNeedBump st
            ∧ serverNeedBump st' = serverNeedBump st)
  ∧ (monoRepo Y = None →
     ∃ st', o = Done tt st'
            ∧ (dep_name d ≠ protoKey → depVersions st' !! dep_name d = Some minimum)
            ∧ (dep_name d = protoKey → depVersions st' = depVersions st))
  ∧ (∀ mr, monoRepo Y = Some mr → String.prefix exclusionPrefix (dep_name d) = false →
           truthy (depVersions st !! key mr) = false →
           ∃ st', o = Done tt st' ∧ depVersions st' !! key mr = Some minimum)
  ∧ (∀ mr held, monoRepo Y = Some mr →
           String.prefix exclusionPrefix (dep_name d) = false →
           depVersions st !! key mr = Some held → held ≠ EmptyString → held ≠ minimum →
           o = Thrown (JsError (inconsistentMessage (dep_name d) minimum)) st)
  ∧ (∀ mr, monoRepo Y = Some mr → String.prefix exclusionPrefix (dep_name d) = true →
           ∃ st', o = Done tt st' ∧ depVersions st' = depVersions st).
Proof.
  intros HY Hsat Hmin o key.
  assert (Ho : o = saveDepVersion (dep_name d) minimum (monoRepo Y) st).
  { unfold o, checkDependency. rewrite HY, Hsat.
    unfold mbind, M_bind, liftResult, mret, M_ret. simpl. by rewrite Hmin. }
  split; [done|]. rewrite Ho. unfold saveDepVersion. repeat split.
  - destruct (saveVersion _ _ _ _); simpl in H0; by injection H0 as <-.
  - destruct (saveVersion _ _ _ _); simpl in H0; by injection H0 as <-.
  - intros ->. rewrite saveVersion_None. eexists. split; [done|]. simpl. split.
    + intros Hname. rewrite assign_ne by done. apply lookup_insert_eq.
    + intros ->. apply assign_proto.
  - intros mr -> Hname Hfresh. rewrite saveVersion_Some_fresh by done.
    eexists. split; [done|]. simpl. apply lookup_insert_eq.
  - intros mr held -> Hname Hheld Hne Hdiff.
    by rewrite (saveVersion_Some_conflict _ _ _ _ held).
  - intros mr -> Hname. rewrite saveVersion_Some_excluded by done. by eexists.
Qed.

Lemma unsatisfied_edge_records_minimum_witness :
  let buildPackages := createPackageMap [Registry.pkg "lib" "2.0.0" None []] in
  let d := mkDependency "lib" "^1.0.0" false in
  ∃ st', checkDependency (H := Caret.semver) buildPackages
           (checkPackageNeedBump (H := Caret.semver) buildPackages 1) d initialState
         = Done tt st'
         ∧ depVersions st' !! "lib" = Some "1.0.0".
Proof.
  intros buildPackages d.
  destruct (@unsatisfied_edge_records_minimum Caret.semver buildPackages
              (checkPackageNeedBump (H := Caret.semver) buildPackages 1) d
              (Registry.pkg "lib" "2.0.0" None []) "1.0.0" initialState)
    as (_ & _ & Hstandalone & _); [by vm_compute..|].
  destruct Hstandalone as (st' & Hrun & Hname & _); [reflexivity|].
  exists st'. split; [exact Hrun|]. apply Hname. discriminate.
Defined.

(** ** The program *)

Lemma git_not_mutating root :
  Forall (λ ev, mutating ev = false) [Exec "git rev-parse --abbrev-ref HEAD" root].
Proof. by repeat constructor. Qed.

(** C9: if the decision phase (the traversal, the record of the two
    generator packages, the snapshot of the versions) throws, [main] has run
    no mutating command: the only command run is the query to git, and
    [main] ends rejected with that error, unless the checks of the branch
    made it exit before the decision phase. *)
Theorem decision_errors_precede_commands `{Semver} env e :
  decisionPhase env = DecisionThrown e →
  Forall (λ ev, mutating ev = false) (main env).1
  ∧ (main env).1 = [Exec "git rev-parse --abbrev-ref HEAD" (resolvedRoot env)]
  ∧ ((main env).2 = Rejected e ∨ ∃ code, (main env).2 = Exit code).
Proof.
  intros Hthrown. unfold main. rewrite Hthrown.
  destruct (gitError env); simpl.
  { split; [apply git_not_mutating|]. split; [done|]. right. eauto. }
  destruct (_ && _); simpl.
  { split; [apply git_not_mutating|]. split; [done|]. right. eauto. }
  split; [apply git_not_mutating|]. split; [done|]. by left.
Qed.

Lemma decision_errors_precede_commands_witness :
  @decisionPhase Caret.semver Registry.conflicting
  = DecisionThrown (JsError "Inconsistent version within Monorepo extra 1.1.0")
  ∧ (@main Caret.semver Registry.conflicting).1 = [Exec "git rev-parse --abbrev-ref HEAD" "/repo"]
  ∧ (@main Caret.semver Registry.conflicting).2
    = Rejected (JsError "Inconsistent version within Monorepo extra 1.1.0").
Proof.
  assert (Hthrown : @decisionPhase Caret.semver Registry.conflicting
            = DecisionThrown (JsError "Inconsistent version within Monorepo extra 1.1.0"))
    by by vm_compute.
  split; [exact Hthrown|].
  destruct (@decision_errors_precede_commands Caret.semver Registry.conflicting _ Hthrown)
    as (_ & Hevents & _).
  split; [exact Hevents|]. by vm_compute.
Defined.

(** ** Further facts and examples *)

(** When [minVersion] returns [null], the read of [.version] throws: the
    non-null assertion of the source is erased by the compiler. *)
Lemma unsatisfied_edge_null_minimum `{Semver} buildPackages recur d Y st :
  buildPackages !! dep_name d = Some Y →
  semver_satisfies (version Y) (dep_range d) = Ok false →
  semver_minVersion (dep_range d) = Ok None →
  checkDependency buildPackages recur d st = Thrown (EngineTypeError "version") st.
Proof.
  intros HY Hsat Hmin. unfold checkDependency. rewrite HY, Hsat.
  unfold mbind, M_bind, liftResult, mret, M_ret. simpl. by rewrite Hmin.
Qed.

(** A mutating command in the events of [main] means that the decision
    phase has ended normally. *)
Lemma commands_follow_decision `{Semver} env ev :
  ev ∈ (main env).1 → mutating ev = true → ∃ d, decisionPhase env = Decided d.
Proof.
  unfold main. intros Hev Hmut.
  assert (Hgit : ev ∈ [Exec "git rev-parse --abbrev-ref HEAD" (resolvedRoot env)] → False).
  { intros ->%list_elem_of_singleton. discriminate. }
  destruct (gitError env); [done|].
  destruct (_ && _); [done|].
  destruct (decisionPhase env) as [d|e|]; [by eexists|done..].
Qed.

(** The fuel is a device of the embedding: neither the decision phase nor
    [main] ever reports that it ran out. *)
Lemma decisionPhase_total `{Semver} env : decisionPhase env ≠ DecisionOutOfFuel.
Proof.
  unfold decisionPhase.
  pose proof (bumpDecision_good (repoPackages env)) as Hgood.
  destruct (bumpDecision (repoPackages env)) as [[] st|e st|]; [|done..].
  simpl. by destruct (collectVersions _ _ _).
Qed.

(** ** The apply phase *)

Lemma awaitAll_spec failure calls : ∀ n,
  (awaitAll failure n calls).1 `prefix_of` calls
  ∧ match (awaitAll failure n calls).2 with
    | Some e => ∃ k, k < length calls ∧ failure (n + k) = Some e
                     ∧ (∀ j, j < k → failure (n + j) = None)
                     ∧ length (awaitAll failure n calls).1 = S k
    | None => (awaitAll failure n calls).1 = calls
              ∧ ∀ k, k < length calls → failure (n + k) = None
    end.
Proof.
  induction calls as [|call calls IH]; intros n; simpl.
  - split; [done|]. split; [done|]. intros k Hk. lia.
  - destruct (failure n) as [e|] eqn:E; simpl.
    + split; [apply prefix_cons, prefix_nil|]. exists 0. rewrite Nat.add_0_r.
      split; [lia|]. split; [done|]. split; [|done]. intros j Hj. lia.
    + destruct (IH (S n)) as [Hpre Hrest]. split; [by apply prefix_cons|].
      destruct ((awaitAll failure (S n) calls).2) as [e|].
      * destruct Hrest as (k & Hk & Hf & Hmin & Hlen). exists (S k). split; [lia|].
        replace (n + S k) with (S n + k) by lia. split; [done|].
        split; [|by rewrite Hlen].
        intros [|j] Hj; [by rewrite Nat.add_0_r|].
        replace (n + S j) with (S n + j) by lia. apply Hmin. lia.
      * destruct Hrest as [-> Hall]. split; [done|].
        intros [|k] Hk; [by rewrite Nat.add_0_r|].
        replace (n + S k) with (S n + k) by lia. apply Hall. lia.
Qed.

Lemma bumpCommands_length versionBump env st :
  applySteps st = length (bumpCommands versionBump env st) + 6.
Proof.
  unfold applySteps, bumpCommands. rewrite !length_app, length_map. simpl.
  destruct (serverNeedBump st); simpl; lia.
Qed.

(** What the apply phase comes to: the first step that fails ends it, and
    if none fails it runs all its commands and ends with the snapshot and
    the report. *)
Lemma applyPhase_spec env versionBump d :
  (applyPhase env versionBump d).1
    `prefix_of` bumpCommands versionBump env (decided d)
                ++ bumpGeneratorFluid (reload env <$> createPackageMap (repoPackages env))
                     (generatorPackage env) (templatePackage env) versionBump
  ∧ ((∃ n e, n < applySteps (decided d) ∧ failure env n = Some e
             ∧ (∀ m, m < n → failure env m = None)
             ∧ length (applyPhase env versionBump d).1 ≤ S n
             ∧ (applyPhase env versionBump d).2 = Rejected e)
     ∨ ((∀ n, n < applySteps (decided d) → failure env n = None)
        ∧ (applyPhase env versionBump d).1
          = bumpCommands versionBump env (decided d)
            ++ bumpGeneratorFluid (reload env <$> createPackageMap (repoPackages env))
                 (generatorPackage env) (templatePackage env) versionBump
        ∧ (applyPhase env versionBump d).2
          = match collectVersions (map (reload env) (repoPackages env))
                    (reload env (generatorPackage env))
                    (reload env (templatePackage env)) with
            | Throw e => Rejected e
            | Ok newVersions =>
                match reportRepo (oldVersions d) newVersions with
                | Throw e => Rejected e
                | Ok _ => Completed
                end
            end)).
Proof.
  unfold applyPhase. cbv zeta.
  rewrite (bumpCommands_length versionBump env).
  set (bumps := bumpCommands versionBump env (decided d)).
  set (gen := bumpGeneratorFluid _ _ _ _).
  assert (Hgen : length gen = 3) by done.
  clearbody bumps gen.
  destruct (awaitAll_spec (failure env) bumps 0) as [Hpb Hb].
  destruct (awaitAll_spec (failure env) gen (length bumps + 1)) as [Hpg Hg].
  destruct (awaitAll (failure env) 0 bumps) as [events [e|]]; simpl in Hpb, Hb.
  { split; [by apply prefix_app_r|]. left.
    destruct Hb as (k & Hk & Hf & Hmin & Hlen). exists k, e.
    split; [lia|]. split; [done|]. split; [|split; [simpl; lia|done]].
    intros m Hm. by apply Hmin. }
  destruct Hb as [-> Hb].
  assert (H0 : ∀ m, m < length bumps → failure env m = None).
  { intros m Hm. by apply Hb. }
  destruct (failure env (length bumps)) as [e|] eqn:H1.
  { split; [by apply prefix_app_r|]. left. exists (length bumps), e.
    split; [lia|]. split; [done|]. split; [|split; [simpl; lia|done]].
    intros m Hm. by apply H0. }
  destruct (awaitAll (failure env) (length bumps + 1) gen) as [events' [e|]];
    simpl in Hpg, Hg.
  { split; [by apply prefix_app|]. left.
    destruct Hg as (k & Hk & Hf & Hmin & Hlen). exists (length bumps + 1 + k), e.
    split; [lia|]. split; [done|].
    split; [|split; [simpl; rewrite length_app; lia|done]]. intros m Hm.
    destruct (decide (m < length bumps)); [by apply H0|].
    destruct (decide (m = length bumps)) as [->|]; [done|].
    replace m with (length bumps + 1 + (m - length bumps - 1)) by lia.
    apply Hmin. lia. }
  destruct Hg as [-> Hg].
  assert (H2 : ∀ m, m < length bumps + 4 → failure env m = None).
  { intros m Hm.
    destruct (decide (m < length bumps)); [by apply H0|].
    destruct (decide (m = length bumps)) as [->|]; [done|].
    replace m with (length bumps + 1 + (m - length bumps - 1)) by lia.
    apply Hg. lia. }
  destruct (failure env (length bumps + 4)) as [e|] eqn:H4.
  { split; [done|]. left. exists (length bumps + 4), e.
    split; [lia|]. split; [done|].
    split; [|split; [simpl; rewrite length_app; lia|done]]. intros m Hm. by apply H2. }
  assert (H5 : ∀ m, m < length bumps + 5 → failure env m = None).
  { intros m Hm.
    destruct (decide (m = length bumps + 4)) as [->|]; [done|]. apply H2. lia. }
  destruct (failure env (length bumps + 5)) as [e|] eqn:H6.
  { split; [done|]. left. exists (length bumps + 5), e.
    split; [lia|]. split; [done|].
    split; [|split; [simpl; rewrite length_app; lia|done]]. intros m Hm. by apply H5. }
  assert (Hnone : ∀ m, m < length bumps + 6 → failure env m = None).
  { intros m Hm.
    destruct (decide (m = length bumps + 5)) as [->|]; [done|]. apply H5. lia. }
  destruct (collectVersions _ _ _) as [newVersions|e].
  - destruct (reportRepo _ _); (split; [done|]); right; done.
  - split; [done|]. by right.
Qed.

(** The case analysis that [applyPhase] makes, step by step. *)
Ltac applyPhase_cases :=
  unfold applyPhase; cbv zeta;
  repeat match goal with
    | |- context [match awaitAll ?f ?n ?l with _ => _ end] =>
        destruct (awaitAll f n l) as [? [?|]] eqn:?
    | |- context [match failure ?env ?n with _ => _ end] =>
        destruct (failure env n) eqn:?
    | |- context [match collectVersions ?a ?b ?c with _ => _ end] =>
        destruct (collectVersions a b c) eqn:?
    | |- context [match reportRepo ?a ?b with _ => _ end] =>
        destruct (reportRepo a b) eqn:?
    end.

Lemma applyPhase_total env versionBump d : (applyPhase env versionBump d).2 ≠ FuelExhausted.
Proof. applyPhase_cases; done. Qed.

Lemma main_total `{Semver} env : (main env).2 ≠ FuelExhausted.
Proof.
  unfold main. pose proof (decisionPhase_total env) as Htotal.
  destruct (gitError env); [done|].
  destruct (_ && _); [done|].
  destruct (decisionPhase env) as [d|e|]; [|done..].
  destruct (reportRelease _ _); [|done].
  pose proof (applyPhase_total env
                (if String.eqb (firstLine (gitStdout env)) "master" then "minor" else "patch")
                d) as Happly.
  by destruct (applyPhase env _ d).
Qed.

(** The cycle [ping] ↔ [pong]: both are bumped, once. *)
Example cyclic_decision :
  packageNeedBump <$> finalState (@bumpDecision Caret.semver Registry.cyclic)
  = Some [Registry.ping; Registry.pong].
Proof. by vm_compute. Qed.

(** A run of [main] to the end: the Client group is bumped, then the
    generator. *)
Example main_consistent :
  @main Caret.semver Registry.consistent
  = ([ Exec "git rev-parse --abbrev-ref HEAD" "/repo";
       Exec (lernaCommand "minor") ".";
       SavePackageJson "packages/template" [mkDependency "core" "^1.2.0" false];
       Exec "npm version minor" "packages/template";
       Exec "npm version minor" "packages/generator-fluid" ],
     Completed).
Proof. by vm_compute. Qed.

(** When the manifest save of [bumpGeneratorFluid] fails, neither of the
    two generator packages is bumped. *)
Example main_save_fails :
  @main Caret.semver (Registry.failingAt 2 (JsError "EACCES"))
  = ([ Exec "git rev-parse --abbrev-ref HEAD" "/repo";
       Exec (lernaCommand "minor") ".";
       SavePackageJson "packages/template" [mkDependency "core" "^1.2.0" false] ],
     Rejected (JsError "EACCES")).
Proof. by vm_compute. Qed.

(** The snapshot taken after the commands is not part of the decision
    phase: when the reloads report nothing and leave diverging versions in
    a group, it throws once the commands have run. *)
Example main_diverging :
  (@main Caret.semver Registry.diverging).2
  = Rejected (JsError "Inconsistent version within Monorepo utils 1.2.0")
  ∧ Exists (λ ev, mutating ev = true) (@main Caret.semver Registry.diverging).1.
Proof. split; [by vm_compute|]. apply Exists_cons_tl, Exists_cons_hd. by vm_compute. Qed.

(** * Further properties *)

(** ** [saveVersion] *)

Lemma MonoRepoKind_name_inj k k' : MonoRepoKind_name k = MonoRepoKind_name k' → k = k'.
Proof. by destruct k, k'. Qed.

Lemma saveVersion_Throw_inv versions name version monoRepo e :
  saveVersion versions name version monoRepo = Throw e →
  e = JsError (inconsistentMessage name version)
  ∧ ∃ mr held, monoRepo = Some mr
      ∧ String.prefix exclusionPrefix name = false
      ∧ versions !! MonoRepoKind_name (kind mr) = Some held
      ∧ held ≠ EmptyString ∧ held ≠ version.
Proof.
  unfold saveVersion. destruct monoRepo as [mr|]; [|done].
  destruct (String.prefix exclusionPrefix name) eqn:Ename; [done|].
  destruct (versions !! MonoRepoKind_name (kind mr)) as [held|] eqn:Eheld; [|done].
  destruct (truthy (Some held)) eqn:Etruthy; [|done].
  case_bool_decide as Hne; [|done]. intros [= <-]. split; [done|].
  exists mr, held. repeat split; try done.
  - by apply truthy_Some.
  - congruence.
Qed.

(** X1: [saveVersion] throws in one case only: the package is a member
    of a group, its name lacks the exclusion prefix, and the key of the
    group holds a non-empty version other than the one to record; what it
    throws is the inconsistent-version error that names the package and the
    new version. *)
Theorem saveVersion_throws_iff versions name version monoRepo e :
  saveVersion versions name version monoRepo = Throw e
  ↔ e = JsError (inconsistentMessage name version)
    ∧ ∃ mr held, monoRepo = Some mr
        ∧ String.prefix exclusionPrefix name = false
        ∧ versions !! MonoRepoKind_name (kind mr) = Some held
        ∧ held ≠ EmptyString ∧ held ≠ version.
Proof.
  split; [apply saveVersion_Throw_inv|].
  intros (-> & mr & held & -> & Hname & Hheld & Hne & Hdiff).
  by eapply saveVersion_Some_conflict.
Qed.

Lemma saveVersion_Ok_inv versions name version monoRepo versions' :
  saveVersion versions name version monoRepo = Ok versions' →
  (∀ key, unitKey name monoRepo = Some key → versions' !! key = Some version)
  ∧ (∀ key, unitKey name monoRepo ≠ Some key → versions' !! key = versions !! key)
  ∧ dom versions' = dom versions ∪ from_option singleton ∅ (unitKey name monoRepo).
Proof.
  unfold saveVersion, unitKey. destruct monoRepo as [mr|].
  - destruct (String.prefix exclusionPrefix name) eqn:Ename.
    { intros [= <-]. simpl. split; [done|]. split; [done|]. by rewrite (right_id_L ∅ (∪)). }
    destruct (truthy (versions !! MonoRepoKind_name (kind mr))) eqn:Etruthy.
    + case_bool_decide as Hne; [done|]. intros [= <-].
      simpl. split; [by intros key [= <-]|].
      split; [done|]. symmetry. rewrite (comm_L (∪)).
      apply subseteq_union_1_L, singleton_subseteq_l.
      apply elem_of_dom. eauto.
    + intros [= <-]. rewrite assign_ne by apply kind_not_proto.
      simpl. split; [intros key [= <-]; apply lookup_insert_eq|].
      split; [|by rewrite dom_insert_L, (comm_L (∪))].
      intros key Hkey. apply lookup_insert_ne. congruence.
  - intros [= <-]. unfold assign. destruct (String.eqb name protoKey).
    { simpl. split; [done|]. split; [done|]. by rewrite (right_id_L ∅ (∪)). }
    simpl. split; [intros key [= <-]; apply lookup_insert_eq|].
    split; [|by rewrite dom_insert_L, (comm_L (∪))].
    intros key Hkey. apply lookup_insert_ne. congruence.
Qed.

(** X2: a record that succeeds leaves the version under the key of the
    unit, if the unit has one, and every other key as it was; no key is ever
    removed.  The key of a standalone package is its name, except that a
    package named [__proto__] has none; that of a member of a group whose
    name lacks the exclusion prefix is the kind of the group; a member whose
    name has the prefix has none.  Nothing is ever stored under
    [__proto__]. *)
Theorem saveVersion_records versions name version monoRepo versions' :
  saveVersion versions name version monoRepo = Ok versions' →
  (monoRepo = None → name ≠ protoKey → versions' !! name = Some version)
  ∧ (∀ mr, monoRepo = Some mr → String.prefix exclusionPrefix name = false →
           versions' !! MonoRepoKind_name (kind mr) = Some version)
  ∧ (∀ key, unitKey name monoRepo ≠ Some key → versions' !! key = versions !! key)
  ∧ dom versions ⊆ dom versions'
  ∧ versions' !! protoKey = versions !! protoKey.
Proof.
  intros Hsave. apply saveVersion_Ok_inv in Hsave as (Hkey & Hother & Hdom).
  split; [|split; [|split; [done|split]]].
  - intros -> Hname. by apply Hkey, unitKey_standalone.
  - intros mr -> Hname. apply Hkey, unitKey_Some. right. by exists mr.
  - rewrite Hdom. apply union_subseteq_l.
  - apply Hother, unitKey_not_proto.
Qed.

Lemma saveVersion_records_witness :
  ∃ versions', saveVersion {["Client" := "1.0.0"]} "tool" "0.5.0" None = Ok versions'
    ∧ versions' !! "tool" = Some "0.5.0"
    ∧ versions' !! "Client" = Some "1.0.0".
Proof.
  eexists. split; [reflexivity|].
  destruct (saveVersion_records {["Client" := "1.0.0"]} "tool" "0.5.0" None _ eq_refl)
    as (Hkey & _ & Hother & _).
  split; [by apply Hkey|]. rewrite Hother; [reflexivity|discriminate].
Defined.

(** X3: recording is idempotent: a record that has succeeded succeeds
    again on its own result and changes nothing. *)
Theorem saveVersion_idempotent versions name version monoRepo versions' :
  saveVersion versions name version monoRepo = Ok versions' →
  saveVersion versions' name version monoRepo = Ok versions'.
Proof.
  intros Hsave. destruct (saveVersion_Ok_inv _ _ _ _ _ Hsave) as (Hkey & _ & _).
  destruct monoRepo as [mr|].
  - destruct (String.prefix exclusionPrefix name) eqn:Ename.
    + by apply saveVersion_Some_excluded.
    + apply saveVersion_Some_same. apply Hkey. unfold unitKey. by rewrite Ename.
  - rewrite saveVersion_None. f_equal.
    destruct (decide (name = protoKey)) as [->|Hname]; [apply assign_proto|].
    rewrite assign_ne by done. apply insert_id. by apply Hkey, unitKey_standalone.
Qed.

Lemma saveVersion_idempotent_witness :
  saveVersion {["Client" := "1.0.0"]} "core" "1.0.0" (Some Registry.clientRepo)
  = Ok {["Client" := "1.0.0"]}.
Proof.
  apply (saveVersion_idempotent ∅ "core" "1.0.0" (Some Registry.clientRepo)).
  reflexivity.
Defined.

(** ** [collectVersions] *)

Lemma saveVersions_dom pkgs : ∀ versions versions',
  saveVersions versions pkgs = Ok versions' →
  dom versions'
  = dom versions ∪ list_to_set (omap (λ p, unitKey (name p) (monoRepo p)) pkgs).
Proof.
  induction pkgs as [|p pkgs IH]; intros versions versions' Hsave; simpl in *.
  - injection Hsave as <-. by rewrite (right_id_L ∅ (∪)).
  - destruct (saveVersion versions (name p) (version p) (monoRepo p)) as [v1|e] eqn:E;
      [|done].
    apply saveVersion_Ok_inv in E as (_ & _ & Hdom).
    rewrite (IH _ _ Hsave), Hdom.
    destruct (unitKey (name p) (monoRepo p)); simpl.
    + by rewrite (assoc_L (∪)).
    + by rewrite (right_id_L ∅ (∪)).
Qed.

Lemma collectVersions_Ok_dom packages generatorPackage templatePackage versions :
  collectVersions packages generatorPackage templatePackage = Ok versions →
  dom versions = unitKeys packages generatorPackage templatePackage.
Proof.
  unfold collectVersions, unitKeys.
  destruct (saveVersions ∅ packages) as [v1|e] eqn:E; [|done].
  rewrite !saveVersion_None. intros [= <-].
  apply saveVersions_dom in E. rewrite !dom_assign, E, dom_empty_L.
  rewrite (left_id_L ∅ (∪)). cbn [omap list_omap].
  destruct (unitKey (name generatorPackage) None), (unitKey (name templatePackage) None);
    simpl; rewrite ?list_to_set_cons, ?list_to_set_nil;
    apply set_eq; intros x; rewrite ?elem_of_union, ?elem_of_empty; tauto.
Qed.

(** X4: the keys of a snapshot: a key is there exactly when it is the
    name of a standalone package of the repository, the kind of a group
    that has a member without the exclusion prefix, or the name of the
    generator or of the template package, and, where it is a name, is not
    [__proto__].  No snapshot has the key [__proto__]. *)
Theorem collectVersions_keys packages generatorPackage templatePackage versions key :
  collectVersions packages generatorPackage templatePackage = Ok versions →
  (is_Some (versions !! key)
   ↔ (∃ p, p ∈ packages ∧ monoRepo p = None ∧ name p = key ∧ key ≠ protoKey)
     ∨ (∃ p k, p ∈ packages ∧ counted k p ∧ key = MonoRepoKind_name k)
     ∨ (key ≠ protoKey ∧ (key = name generatorPackage ∨ key = name templatePackage)))
  ∧ versions !! protoKey = None.
Proof.
  intros Hok. apply collectVersions_Ok_dom in Hok.
  assert (Hkeys : ∀ key', key' ∈ dom versions
            ↔ (∃ p, p ∈ packages ∧ unitKey (name p) (monoRepo p) = Some key')
              ∨ (key' ≠ protoKey
                 ∧ (key' = name generatorPackage ∨ key' = name templatePackage))).
  { intros key'. rewrite Hok. unfold unitKeys.
    rewrite elem_of_union, !elem_of_list_to_set, !list_elem_of_omap.
    split; (intros [Hp|Hg]; [by left|right]).
    - destruct Hg as (p & Hp & [(_ & <- & Hname)|(mr & ? & _)]%unitKey_Some); [|done].
      split; [done|].
      apply elem_of_cons in Hp as [->|Hp]; [by left|].
      apply list_elem_of_singleton in Hp as ->. by right.
    - destruct Hg as [Hname [->| ->]].
      + exists generatorPackage. split; [by left|]. by apply unitKey_standalone.
      + exists templatePackage. split; [by right; left|]. by apply unitKey_standalone. }
  split.
  - rewrite <- elem_of_dom, Hkeys. split.
    + intros [(p & Hp & [(Hnone & Hname & Hkey)|(mr & Hmr & Hname & ->)]%unitKey_Some)|Hg].
      * left. by exists p.
      * right. left. exists p, (kind mr). split; [done|]. split; [|done].
        split; [|done]. unfold kindOf. by rewrite Hmr.
      * by do 2 right.
    + intros [(p & Hp & Hnone & Hname & Hkey)|[(p & k & Hp & [Hk Hname] & ->)|Hg]].
      * left. exists p. split; [done|]. apply unitKey_Some. by left.
      * left. exists p. split; [done|]. apply unitKey_Some. right.
        unfold kindOf in Hk. destruct (monoRepo p) as [mr|]; [|done].
        injection Hk as <-. by exists mr.
      * by right.
  - apply not_elem_of_dom. rewrite Hkeys.
    intros [(p & _ & Hp)|[? _]]; [|done]. by apply unitKey_not_proto in Hp.
Qed.

Lemma collectVersions_keys_witness :
  ∃ versions,
    collectVersions Registry.scenario Registry.generator Registry.template = Ok versions
    ∧ (is_Some (versions !! "tool")
       ↔ (∃ p, p ∈ Registry.scenario ∧ monoRepo p = None ∧ name p = "tool"
               ∧ "tool" ≠ protoKey)
         ∨ (∃ p k, p ∈ Registry.scenario ∧ counted k p ∧ "tool" = MonoRepoKind_name k)
         ∨ ("tool" ≠ protoKey
            ∧ ("tool" = name Registry.generator ∨ "tool" = name Registry.template)))
    ∧ versions !! protoKey = None.
Proof.
  eexists. split; [reflexivity|].
  by apply (collectVersions_keys Registry.scenario Registry.generator Registry.template).
Defined.

Lemma counted_unitKey k p :
  counted k p → unitKey (name p) (monoRepo p) = Some (MonoRepoKind_name k).
Proof.
  intros [Hk Hname]. unfold unitKey, kindOf in *.
  destruct (monoRepo p) as [mr|]; [|done]. rewrite Hname. simpl in Hk. congruence.
Qed.

Lemma unitKey_counted k p :
  (monoRepo p = None → ¬ groupKey (name p)) →
  unitKey (name p) (monoRepo p) = Some (MonoRepoKind_name k) → counted k p.
Proof.
  intros Hplain. unfold unitKey, counted, kindOf.
  destruct (monoRepo p) as [mr|].
  - destruct (String.prefix exclusionPrefix (name p)); [done|].
    intros [= Hk%MonoRepoKind_name_inj]. simpl. by rewrite Hk.
  - destruct (String.eqb (name p) protoKey); [done|].
    intros [= Hname]. destruct Hplain; [done|]. by exists k.
Qed.

Lemma saveVersion_keeps_group k v versions p versions' :
  versions !! MonoRepoKind_name k = Some v → v ≠ EmptyString →
  (monoRepo p = None → ¬ groupKey (name p)) →
  saveVersion versions (name p) (version p) (monoRepo p) = Ok versions' →
  versions' !! MonoRepoKind_name k = Some v.
Proof.
  intros Hheld Hv Hplain Hsave.
  destruct (decide (unitKey (name p) (monoRepo p) = Some (MonoRepoKind_name k)))
    as [Hkey|Hkey].
  - apply unitKey_counted in Hkey as [Hk Hname]; [|done].
    unfold kindOf in Hk. destruct (monoRepo p) as [mr|]; [|done].
    simpl in Hk. injection Hk as Hk. unfold saveVersion in Hsave.
    rewrite Hname, Hk, Hheld, (proj2 (truthy_Some v) Hv) in Hsave.
    case_bool_decide; [done|]. by injection Hsave as <-.
  - apply saveVersion_Ok_inv in Hsave as (_ & Hother & _). by rewrite Hother.
Qed.

Lemma saveVersions_keeps_group k v pkgs : ∀ versions versions',
  versions !! MonoRepoKind_name k = Some v → v ≠ EmptyString →
  noGroupNamed pkgs →
  saveVersions versions pkgs = Ok versions' →
  versions' !! MonoRepoKind_name k = Some v.
Proof.
  induction pkgs as [|p pkgs IH]; intros versions versions' Hheld Hv Hplain Hsave;
    simpl in *; [by injection Hsave as <-|].
  destruct (saveVersion versions (name p) (version p) (monoRepo p)) as [v1|e] eqn:E;
    [|done].
  eapply IH; [|done| |done].
  - eapply saveVersion_keeps_group; eauto. apply Hplain. by left.
  - intros q Hq. apply Hplain. by right.
Qed.

Lemma saveVersions_group pkgs : ∀ versions versions' k p,
  noGroupNamed pkgs → versionsGiven pkgs →
  saveVersions versions pkgs = Ok versions' →
  p ∈ pkgs → counted k p →
  versions' !! MonoRepoKind_name k = Some (version p).
Proof.
  induction pkgs as [|q pkgs IH]; intros versions versions' k p Hplain Hgiven Hsave Hp Hc;
    [by apply elem_of_nil in Hp|].
  simpl in Hsave.
  destruct (saveVersion versions (name q) (version q) (monoRepo q)) as [v1|e] eqn:E;
    [|done].
  assert (Hplain' : noGroupNamed pkgs) by (intros x Hx; apply Hplain; by right).
  apply elem_of_cons in Hp as [->|Hp].
  - apply (saveVersions_keeps_group k (version q) pkgs v1); [|by eapply Hgiven; [left|]|done..].
    apply saveVersion_Ok_inv in E as (Hkey & _ & _). by apply Hkey, counted_unitKey.
  - eapply IH; eauto. intros x k' Hx. apply Hgiven. by right.
Qed.

(** X5: in a snapshot, the template package is found under its name
    with its version, unless it is named [__proto__]; the generator
    package too, unless it is named [__proto__] or the template has the
    same name; and, when no standalone package (of the repository or of the
    two) has the name of a group and the versions of the members are not
    empty, every member without the exclusion prefix finds its own version
    under the key of its group. *)
Theorem collectVersions_lookup packages generatorPackage templatePackage versions :
  collectVersions packages generatorPackage templatePackage = Ok versions →
  (name templatePackage ≠ protoKey →
   versions !! name templatePackage = Some (version templatePackage))
  ∧ (name generatorPackage ≠ protoKey →
     name generatorPackage ≠ name templatePackage →
     versions !! name generatorPackage = Some (version generatorPackage))
  ∧ (noGroupNamed packages → versionsGiven packages →
     ¬ groupKey (name generatorPackage) → ¬ groupKey (name templatePackage) →
     ∀ k p, p ∈ packages → counted k p →
            versions !! MonoRepoKind_name k = Some (version p)).
Proof.
  unfold collectVersions.
  destruct (saveVersions ∅ packages) as [v1|e] eqn:E; [|done].
  rewrite !saveVersion_None. intros [= <-].
  split; [apply lookup_assign_eq|]. split.
  - intros Hproto Hne. rewrite lookup_assign_ne by done. by apply lookup_assign_eq.
  - intros Hplain Hgiven Hgen Htmpl k p Hp Hc.
    rewrite !lookup_assign_ne.
    + by eapply saveVersions_group.
    + intros Heq. apply Hgen. by exists k.
    + intros Heq. apply Htmpl. by exists k.
Qed.

Lemma collectVersions_lookup_witness :
  ∃ versions,
    collectVersions Registry.scenario Registry.generator Registry.template = Ok versions
    ∧ versions !! "template" = Some "0.9.0"
    ∧ versions !! "generator-fluid" = Some "0.9.0".
Proof.
  eexists. split; [reflexivity|].
  destruct (collectVersions_lookup Registry.scenario Registry.generator
              Registry.template _ eq_refl) as (Htmpl & Hgen & _).
  split; [apply Htmpl; discriminate|]. apply Hgen; discriminate.
Defined.

Lemma saveVersions_succeeds pkgs : ∀ versions,
  noGroupNamed pkgs → versionsGiven pkgs → consistentGroups pkgs →
  (∀ k v, versions !! MonoRepoKind_name k = Some v →
          v ≠ EmptyString ∧ ∀ p, p ∈ pkgs → counted k p → version p = v) →
  ∃ versions', saveVersions versions pkgs = Ok versions'.
Proof.
  induction pkgs as [|q pkgs IH]; intros versions Hplain Hgiven Hcons Hheld;
    simpl; [by eexists|].
  destruct (saveVersion versions (name q) (version q) (monoRepo q)) as [v1|e] eqn:E.
  - apply IH.
    + intros x Hx. apply Hplain. by right.
    + intros x k Hx. apply Hgiven. by right.
    + intros x y k Hx Hy. apply Hcons; by right.
    + intros k v Hv.
      destruct (decide (unitKey (name q) (monoRepo q) = Some (MonoRepoKind_name k)))
        as [Hkey|Hkey].
      * apply unitKey_counted in Hkey as Hc; [|apply Hplain; by left].
        apply saveVersion_Ok_inv in E as (Hq & _ & _).
        rewrite (Hq _ Hkey) in Hv. injection Hv as <-.
        split; [eapply Hgiven; [by left|done]|].
        intros p Hp Hcp. eapply Hcons; [by right|by left|done..].
      * apply saveVersion_Ok_inv in E as (_ & Hother & _).
        rewrite Hother in Hv by done. destruct (Hheld k v Hv) as [? Hall].
        split; [done|]. intros p Hp. apply Hall. by right.
  - apply saveVersion_Throw_inv in E as (_ & mr & held & Hmr & Hname & Hheldq & Hne & Hdiff).
    destruct (Hheld (kind mr) held Hheldq) as [_ Hall].
    destruct Hdiff. symmetry. apply Hall; [by left|].
    split; [|done]. unfold kindOf. by rewrite Hmr.
Qed.

Lemma collectVersions_Ok_consistent packages generatorPackage templatePackage versions :
  noGroupNamed packages → versionsGiven packages →
  collectVersions packages generatorPackage templatePackage = Ok versions →
  consistentGroups packages.
Proof.
  intros Hplain Hgiven Hok p q k Hp Hq Hcp Hcq. unfold collectVersions in Hok.
  destruct (saveVersions ∅ packages) as [v1|e] eqn:E; [|done].
  pose proof (saveVersions_group _ _ _ k p Hplain Hgiven E Hp Hcp) as H1.
  pose proof (saveVersions_group _ _ _ k q Hplain Hgiven E Hq Hcq) as H2.
  congruence.
Qed.

(** X6: on a repository where no standalone package has the name of a
    group and the members' versions are not empty, the snapshot succeeds
    exactly when, in each group, the members without the exclusion prefix
    all carry the same version. *)
Theorem collectVersions_succeeds_iff packages generatorPackage templatePackage :
  noGroupNamed packages → versionsGiven packages →
  (∃ versions, collectVersions packages generatorPackage templatePackage = Ok versions)
  ↔ consistentGroups packages.
Proof.
  intros Hplain Hgiven. split.
  - intros [versions Hok]. by eapply collectVersions_Ok_consistent.
  - intros Hcons. unfold collectVersions.
    destruct (saveVersions_succeeds packages ∅ Hplain Hgiven Hcons) as [v1 ->].
    + intros k v Hv. by rewrite lookup_empty in Hv.
    + rewrite !saveVersion_None. by eexists.
Qed.

Lemma collectVersions_succeeds_iff_witness :
  (∃ versions,
     collectVersions Registry.scenario Registry.generator Registry.template = Ok versions)
  ↔ consistentGroups Registry.scenario.
Proof.
  apply (collectVersions_succeeds_iff Registry.scenario).
  - intros p Hp Hnone [k Hk]. vm_compute in Hp.
    repeat (apply elem_of_cons in Hp as [->|Hp]; [by destruct k|]).
    by apply elem_of_nil in Hp.
  - intros p k Hp _. vm_compute in Hp.
    repeat (apply elem_of_cons in Hp as [->|Hp]; [done|]).
    by apply elem_of_nil in Hp.
Defined.

(** ** [main] *)

Lemma saveVersions_throws pkgs : ∀ versions e,
  saveVersions versions pkgs = Throw e →
  ∃ p, p ∈ pkgs ∧ e = JsError (inconsistentMessage (name p) (version p)).
Proof.
  induction pkgs as [|q pkgs IH]; intros versions e Hsave; simpl in *; [done|].
  destruct (saveVersion versions (name q) (version q) (monoRepo q)) as [v1|e'] eqn:E.
  - destruct (IH _ _ Hsave) as (p & Hp & ->). exists p. split; [by right|done].
  - injection Hsave as <-. apply saveVersion_Throw_inv in E as [-> _].
    exists q. split; [by left|done].
Qed.

Lemma collectVersions_throws packages generatorPackage templatePackage e :
  collectVersions packages generatorPackage templatePackage = Throw e →
  ∃ p, p ∈ packages ∧ e = JsError (inconsistentMessage (name p) (version p)).
Proof.
  unfold collectVersions.
  destruct (saveVersions ∅ packages) as [v1|e'] eqn:E; [by rewrite !saveVersion_None|].
  intros [= <-]. by eapply saveVersions_throws.
Qed.

Lemma decisionPhase_Decided `{Semver} env d :
  decisionPhase env = Decided d →
  bumpDecision (repoPackages env) = Done tt (decided d)
  ∧ releaseVersions d
    = assign (assign (depVersions (decided d))
                (name (generatorPackage env)) (version (generatorPackage env)))
        (name (templatePackage env)) (version (templatePackage env))
  ∧ collectVersions (repoPackages env) (generatorPackage env) (templatePackage env)
    = Ok (oldVersions d).
Proof.
  unfold decisionPhase.
  destruct (bumpDecision (repoPackages env)) as [[] st|e st|]; [|done..].
  rewrite !saveVersion_None.
  destruct (collectVersions _ _ _) as [old|e]; [|done].
  by intros [= <-].
Qed.

Lemma unitKeys_reload (f : Package → Package) packages generatorPackage templatePackage :
  (∀ p, p ∈ generatorPackage :: templatePackage :: packages →
        name (f p) = name p ∧ monoRepo (f p) = monoRepo p) →
  unitKeys (map f packages) (f generatorPackage) (f templatePackage)
  = unitKeys packages generatorPackage templatePackage.
Proof.
  intros Hf. unfold unitKeys. cbn [omap list_omap].
  destruct (Hf generatorPackage) as [-> _]; [by left|].
  destruct (Hf templatePackage) as [-> _]; [by right; left|].
  assert (Hpackages : ∀ p, p ∈ packages → name (f p) = name p ∧ monoRepo (f p) = monoRepo p).
  { intros p Hp. apply Hf. by do 2 right. }
  clear Hf. f_equal. f_equal.
  induction packages as [|p packages IH]; [done|].
  cbn [map omap list_omap]. destruct (Hpackages p) as [-> ->]; [by left|].
  rewrite IH; [done|]. intros q Hq. apply Hpackages. by right.
Qed.

(** The events of [main] once the checks of the branch and the decision
    phase are passed. *)
Lemma main_events `{Semver} env ev :
  ev ∈ (main env).1 → mutating ev = true →
  gitError env = false
  ∧ (firstLine (gitStdout env) = "master"
     ∨ String.prefix "release/" (firstLine (gitStdout env)) = true)
  ∧ ∃ d, decisionPhase env = Decided d
         ∧ reportRelease (oldVersions d) (releaseVersions d) = Ok tt
         ∧ main env
           = let r := applyPhase env
                        (if String.eqb (firstLine (gitStdout env)) "master"
                         then "minor" else "patch") d in
             (Exec "git rev-parse --abbrev-ref HEAD" (resolvedRoot env) :: r.1, r.2).
Proof.
  unfold main. intros Hev Hmut.
  assert (Hgit : ev ∈ [Exec "git rev-parse --abbrev-ref HEAD" (resolvedRoot env)] → False).
  { intros ->%list_elem_of_singleton. discriminate. }
  destruct (gitError env); [done|]. split; [done|].
  destruct (String.eqb_spec (firstLine (gitStdout env)) "master") as [Hm|Hm];
    destruct (String.prefix "release/" (firstLine (gitStdout env))) eqn:Hr;
    simpl in *; try done.
  all: split; [auto|].
  all: destruct (decisionPhase env) as [d|e|]; [|done..].
  all: exists d; split; [done|].
  all: destruct (reportRelease (oldVersions d) (releaseVersions d)) as [[]|e]; [|done].
  all: split; [done|]; by destruct (applyPhase env _ d).
Qed.

(** X7: when a reload changes neither the name nor the group of a
    package, [main], once it has run a mutating command, ends in one of
    three ways: it completes; or a step of the apply phase (a command, the
    manifest save, a reload) fails and [main] is rejected with the error of
    the first step that fails; or no step fails and [main] is rejected with
    the inconsistent-version error on the reloaded version of a package of
    the repository.  The final report never fails on a missing key. *)
Theorem main_after_commands `{Semver} env ev :
  (∀ p, p ∈ generatorPackage env :: templatePackage env :: repoPackages env →
        name (reload env p) = name p ∧ monoRepo (reload env p) = monoRepo p) →
  ev ∈ (main env).1 → mutating ev = true →
  (main env).2 = Completed
  ∨ (∃ n e, failure env n = Some e ∧ (∀ m, m < n → failure env m = None)
            ∧ (main env).2 = Rejected e)
  ∨ (∃ p, p ∈ repoPackages env
          ∧ (main env).2
            = Rejected (JsError (inconsistentMessage (name p) (version (reload env p))))).
Proof.
  intros Hreload Hev Hmut.
  destruct (main_events env ev Hev Hmut) as (_ & _ & d & Hd & _ & ->).
  cbv zeta. simpl.
  destruct (applyPhase_spec env
              (if String.eqb (firstLine (gitStdout env)) "master" then "minor" else "patch")
              d) as [_ [(n & e & _ & Hf & Hmin & _ & ->)|(_ & _ & ->)]].
  { right. left. by exists n, e. }
  apply decisionPhase_Decided in Hd as (_ & _ & Hold).
  destruct (collectVersions (map (reload env) (repoPackages env)) _ _)
    as [newVersions|e] eqn:Enew; simpl.
  - unfold reportRepo.
    apply collectVersions_Ok_dom in Hold, Enew.
    rewrite unitKeys_reload in Enew by done.
    rewrite bool_decide_eq_true_2; [by left|]. by rewrite Hold, Enew.
  - do 2 right. apply collectVersions_throws in Enew as (q & Hq & ->).
    apply list_elem_of_fmap in Hq as (p & -> & Hp).
    exists p. split; [done|]. destruct (Hreload p) as [-> _]; [by do 2 right|done].
Qed.

Lemma main_after_commands_witness :
  (@main Caret.semver Registry.diverging).2 = Completed
  ∨ (∃ n e, failure Registry.diverging n = Some e
            ∧ (∀ m, m < n → failure Registry.diverging m = None)
            ∧ (@main Caret.semver Registry.diverging).2 = Rejected e)
  ∨ (∃ p, p ∈ repoPackages Registry.diverging
          ∧ (@main Caret.semver Registry.diverging).2
            = Rejected (JsError (inconsistentMessage (name p)
                                   (version (reload Registry.diverging p))))).
Proof.
  apply (@main_after_commands Caret.semver Registry.diverging
           (Exec (lernaCommand "minor") ".")).
  - intros p Hp. vm_compute in Hp.
    repeat (apply elem_of_cons in Hp as [->|Hp]; [by vm_compute|]).
    by apply elem_of_nil in Hp.
  - vm_compute. apply list_elem_of_further, list_elem_of_here.
  - reflexivity.
Defined.

(** X8: a mutating command is run only after git has answered without
    error with a branch that is [master] or starts with [release/], and
    every such command bumps by the same step: [minor] on [master],
    [patch] on a release branch. *)
Theorem main_commands_bump `{Semver} env command cwd :
  Exec command cwd ∈ (main env).1 → mutating (Exec command cwd) = true →
  gitError env = false
  ∧ ((firstLine (gitStdout env) = "master"
      ∧ (String.prefix "npx lerna version minor " command = true
         ∨ String.prefix "npm version minor" command = true))
     ∨ (firstLine (gitStdout env) ≠ "master"
        ∧ String.prefix "release/" (firstLine (gitStdout env)) = true
        ∧ (String.prefix "npx lerna version patch " command = true
           ∨ String.prefix "npm version patch" command = true))).
Proof.
  intros Hev Hmut.
  destruct (main_events env _ Hev Hmut) as (Hgit & Hbranch & d & _ & _ & Hmain).
  split; [done|]. rewrite Hmain in Hev. simpl in Hev.
  apply elem_of_cons in Hev as [Hev|Hev]; [by rewrite Hev in Hmut|].
  assert (Hcases : ∀ versionBump,
    Exec command cwd ∈ (applyPhase env versionBump d).1 →
    command = lernaCommand versionBump
    ∨ command = "npm version " +:+ versionBump +:+ " && npm run build:genver"
    ∨ command = "npm version " +:+ versionBump).
  { intros versionBump Hin.
    destruct (applyPhase_spec env versionBump d) as [[rest Hplan] _].
    assert (Hin' : Exec command cwd ∈ (applyPhase env versionBump d).1 ++ rest).
    { apply elem_of_app. by left. }
    rewrite <- Hplan in Hin'. clear Hin Hplan. revert Hin'.
    unfold bumpCommands. simpl.
    rewrite elem_of_cons, !elem_of_app, list_elem_of_fmap.
    unfold bumpGeneratorFluid, bumpMonoRepo.
    intros [[= -> _]|[[Hserver|(pkg & Hpkg & _)]|Hgen]]; [by left| | |].
    - destruct (serverNeedBump (decided d));
        [apply list_elem_of_singleton in Hserver as [= -> _]; by left
        |by apply elem_of_nil in Hserver].
    - unfold bumpPackage in Hpkg.
      destruct (truthy (getScript pkg "build:genver")); injection Hpkg as -> _; auto.
    - apply elem_of_cons in Hgen as [Hgen|Hgen]; [done|].
      repeat (apply elem_of_cons in Hgen as [[= -> _]|Hgen]; [by auto|]).
      by apply elem_of_nil in Hgen. }
  apply Hcases in Hev.
  destruct (String.eqb_spec (firstLine (gitStdout env)) "master") as [Hm|Hm].
  - left. split; [done|].
    destruct Hev as [->|[->| ->]]; [by left|by right..].
  - right. split; [done|]. destruct Hbranch as [?|Hrelease]; [done|]. split; [done|].
    destruct Hev as [->|[->| ->]]; [by left|by right..].
Qed.

Lemma main_commands_bump_witness :
  gitError Registry.consistent = false
  ∧ ((firstLine (gitStdout Registry.consistent) = "master"
      ∧ (String.prefix "npx lerna version minor " (lernaCommand "minor") = true
         ∨ String.prefix "npm version minor" (lernaCommand "minor") = true))
     ∨ (firstLine (gitStdout Registry.consistent) ≠ "master"
        ∧ String.prefix "release/" (firstLine (gitStdout Registry.consistent)) = true
        ∧ (String.prefix "npx lerna version patch " (lernaCommand "minor") = true
           ∨ String.prefix "npm version patch" (lernaCommand "minor") = true))).
Proof.
  apply (@main_commands_bump Caret.semver Registry.consistent (lernaCommand "minor") ".").
  - vm_compute. apply list_elem_of_further, list_elem_of_here.
  - reflexivity.
Defined.

(** X9: on a repository where two members of one group, both without
    the exclusion prefix, carry different versions (no standalone package
    having the name of a group, no member an empty version), [main] runs
    no mutating command: the only command is the query to git. *)
Theorem main_inconsistent_repository `{Semver} env p q k :
  noGroupNamed (repoPackages env) → versionsGiven (repoPackages env) →
  p ∈ repoPackages env → q ∈ repoPackages env →
  counted k p → counted k q → version p ≠ version q →
  (main env).1 = [Exec "git rev-parse --abbrev-ref HEAD" (resolvedRoot env)]
  ∧ (main env).2 ≠ Completed.
Proof.
  intros Hplain Hgiven Hp Hq Hcp Hcq Hdiff.
  assert (Hnot : ∀ d, decisionPhase env ≠ Decided d).
  { intros d Hd. apply decisionPhase_Decided in Hd as (_ & _ & Hold).
    apply Hdiff.
    eapply (collectVersions_Ok_consistent _ _ _ _ Hplain Hgiven Hold); eauto. }
  unfold main. destruct (gitError env); [done|].
  destruct (_ && _); [done|].
  destruct (decisionPhase env) as [d|e|]; [by destruct (Hnot d)|done..].
Qed.

Lemma main_inconsistent_repository_witness :
  (@main Caret.semver Registry.conflicting).1
  = [Exec "git rev-parse --abbrev-ref HEAD" "/repo"]
  ∧ (@main Caret.semver Registry.conflicting).2 ≠ Completed.
Proof.
  apply (@main_inconsistent_repository Caret.semver Registry.conflicting
           (Registry.pkg "base" "1.0.0" (Some Registry.clientRepo) [])
           (Registry.pkg "extra" "1.1.0" (Some Registry.clientRepo) []) Client).
  - intros x Hx Hnone [k Hk]. vm_compute in Hx.
    repeat (apply elem_of_cons in Hx as [->|Hx]; [by destruct k|]).
    by apply elem_of_nil in Hx.
  - intros x k Hx _. vm_compute in Hx.
    repeat (apply elem_of_cons in Hx as [->|Hx]; [done|]).
    by apply elem_of_nil in Hx.
  - apply list_elem_of_further, list_elem_of_here.
  - apply list_elem_of_further, list_elem_of_further, list_elem_of_here.
  - by vm_compute.
  - by vm_compute.
  - discriminate.
Defined.

(** ** The traversal: the flag and the recorded keys *)

Section flag_invariant.
Context `{Semver}.
Variable buildPackages : gmap string Package.
Variable R : Package → Prop.

Lemma reachable_edge pkg Y :
  reachable buildPackages R pkg → satisfiedEdge buildPackages pkg Y →
  ∃ r, R r ∧ tc (satisfiedEdge buildPackages) r Y.
Proof.
  intros [?|(r & ? & ?)] Hedge.
  - exists pkg. split; [done|by apply tc_once].
  - exists r. split; [done|]. eapply tc_r; eauto.
Qed.

Lemma flag_root V r st :
  R r → wellFormed buildPackages st → flagInv buildPackages R V st →
  flagPre buildPackages R (V ++ [r]) r st.
Proof. intros Hr Hwf [HI HF]. split; [by apply traversal_root|done]. Qed.

Lemma flag_log V pkg st :
  flagPre buildPackages R V pkg st →
  flagInv buildPackages R V (logScan pkg st) ∧ reachable buildPackages R pkg.
Proof.
  intros [HP HF]. destruct (traversal_log buildPackages R V pkg st HP) as [HI HA].
  split; [by split|done].
Qed.

Lemma flag_add V pkg Y st :
  flagInv buildPackages R V st → reachable buildPackages R pkg →
  wellFormed buildPackages st → satisfiedEdge buildPackages pkg Y →
  monoRepo Y = None → Y ∉ packageNeedBump st →
  flagPre buildPackages R V Y (addPackageNeedBump Y st).
Proof. intros [HI HF] **. split; [by eapply traversal_add|done]. Qed.

Lemma flag_flag V pkg Y st :
  flagInv buildPackages R V st → reachable buildPackages R pkg →
  satisfiedEdge buildPackages pkg Y → kindOf Y = Some Server →
  flagInv buildPackages R V (setServerNeedBump st).
Proof.
  intros [HI HF] Hpkg Hedge Hk. split; [done|]. intros _.
  destruct (reachable_edge pkg Y Hpkg Hedge) as (r & ? & ?). by exists r, Y.
Qed.

Lemma flag_save V pkg d Y v (m : gmap string string) st :
  flagInv buildPackages R V st → reachable buildPackages R pkg →
  d ∈ combinedDependencies pkg → buildPackages !! dep_name d = Some Y →
  recordedFor d Y v →
  saveVersion (depVersions st) (dep_name d) v (monoRepo Y) = Ok m →
  flagInv buildPackages R V (setDepVersions m st).
Proof. done. Qed.

End flag_invariant.

Section keys_invariant.
Context `{Semver}.
Variable packages : list Package.

Let buildPackages := createPackageMap packages.

Lemma values_root (V : list Package) r st :
  r ∈ packages → wellFormed buildPackages st → valuesKnown buildPackages packages st →
  valuesKnown buildPackages packages st ∧ r ∈ packages.
Proof. done. Qed.

Lemma values_log (V : list Package) pkg st :
  valuesKnown buildPackages packages st ∧ pkg ∈ packages →
  valuesKnown buildPackages packages (logScan pkg st) ∧ pkg ∈ packages.
Proof. done. Qed.

Lemma values_add (V : list Package) pkg Y st :
  valuesKnown buildPackages packages st → pkg ∈ packages →
  wellFormed buildPackages st → satisfiedEdge buildPackages pkg Y →
  monoRepo Y = None → Y ∉ packageNeedBump st →
  valuesKnown buildPackages packages (addPackageNeedBump Y st) ∧ Y ∈ packages.
Proof.
  intros HK _ _ (d & _ & HY & _) _ _. split; [done|].
  by apply createPackageMap_lookup in HY as [_ ?].
Qed.

Lemma values_flag (V : list Package) pkg Y st :
  valuesKnown buildPackages packages st → pkg ∈ packages →
  satisfiedEdge buildPackages pkg Y → kindOf Y = Some Server →
  valuesKnown buildPackages packages (setServerNeedBump st).
Proof. done. Qed.

Lemma values_save (V : list Package) pkg d Y v (m : gmap string string) st :
  valuesKnown buildPackages packages st → pkg ∈ packages →
  d ∈ combinedDependencies pkg → buildPackages !! dep_name d = Some Y →
  recordedFor d Y v →
  saveVersion (depVersions st) (dep_name d) v (monoRepo Y) = Ok m →
  valuesKnown buildPackages packages (setDepVersions m st).
Proof.
  intros HK Hpkg Hd HY Hv Hsave key v' Hkey. simpl in Hkey.
  apply saveVersion_Ok_inv in Hsave as (Hunit & Hother & _).
  destruct (decide (unitKey (dep_name d) (monoRepo Y) = Some key)) as [Hk|Hk].
  - rewrite (Hunit key Hk) in Hkey. injection Hkey as <-. by exists pkg, d, Y.
  - rewrite Hother in Hkey by done. by apply HK.
Qed.

(** What every run of the decision leaves in [depVersions]. *)
Lemma bumpDecision_valuesKnown st :
  finalState (bumpDecision packages) = Some st → valuesKnown buildPackages packages st.
Proof.
  rewrite bumpDecision_unfold. fold buildPackages.
  assert (Hwave : ∀ checkRepo s,
    wellFormed buildPackages s → valuesKnown buildPackages packages s →
    match checkMonoRepoNeedBump buildPackages packages (traversalFuel packages)
            checkRepo s with
    | Done _ s' => wellFormed buildPackages s' ∧ valuesKnown buildPackages packages s'
    | Thrown _ s' => valuesKnown buildPackages packages s'
    | OutOfFuel => False
    end).
  { intros checkRepo s Hwf HK.
    pose proof (checkMonoRepoNeedBump_good buildPackages (createPackageMap_keyed packages)
                  (λ _ pkg s, valuesKnown buildPackages packages s ∧ pkg ∈ packages)
                  (λ _ s, valuesKnown buildPackages packages s) (λ pkg, pkg ∈ packages)
                  (λ pkg, pkg ∈ packages)
                  values_root values_log values_add values_flag values_save
                  (traversalFuel packages) checkRepo packages [] s
                  ltac:(done) (createPackageMap_size packages) Hwf HK) as Hgood.
    destruct (checkMonoRepoNeedBump _ _ _ _ s) as [[] s'|e s'|]; [| |done].
    - by destruct Hgood as (? & ? & _).
    - by destruct Hgood as (_ & (V' & _ & ?) & _). }
  assert (W0 : wellFormed buildPackages initialState).
  { split; [apply NoDup_nil_2|]. intros p Hp. by apply elem_of_nil in Hp. }
  assert (K0 : valuesKnown buildPackages packages initialState).
  { intros key v Hv. simpl in Hv. by rewrite lookup_empty in Hv. }
  pose proof (Hwave Client initialState W0 K0) as H1.
  destruct (checkMonoRepoNeedBump _ _ _ Client initialState) as [[] s1|e s1|];
    [| |done].
  - destruct H1 as [W1 K1]. destruct (serverNeedBump s1).
    + pose proof (Hwave Server s1 W1 K1) as H2.
      destruct (checkMonoRepoNeedBump _ _ _ Server s1) as [[] s2|e s2|]; [| |done].
      * destruct H2. by intros [= <-].
      * by intros [= <-].
    + by intros [= <-].
  - by intros [= <-].
Qed.

Lemma bumpDecision_keysKnown st :
  finalState (bumpDecision packages) = Some st → keysKnown packages st.
Proof.
  intros Hst key [v Hv].
  destruct (bumpDecision_valuesKnown st Hst key v Hv) as (X & d & Y & HX & Hd & _ & Hkey & _).
  apply unitKey_Some in Hkey as [(_ & <- & _)|(mr & _ & _ & ->)].
  - right. by exists X, d.
  - left. by eexists.
Qed.

End keys_invariant.

(** X17: whenever the traversal stops, every entry of the
    dependency-versions map was recorded for a dependency that a package of
    the registry declares and that resolves in the registry, under the key
    of the unit it resolves to; its value is the current version of that
    package if the declared range is satisfied, the minimum of the range if
    it is not. *)
Theorem depVersions_provenance `{Semver} packages st key v :
  finalState (bumpDecision packages) = Some st →
  depVersions st !! key = Some v →
  ∃ X d Y, X ∈ packages ∧ d ∈ combinedDependencies X
           ∧ createPackageMap packages !! dep_name d = Some Y
           ∧ unitKey (dep_name d) (monoRepo Y) = Some key
           ∧ recordedFor d Y v.
Proof.
  intros Hst Hv.
  destruct (bumpDecision_valuesKnown packages st Hst key v Hv)
    as (X & d & Y & HX & Hd & HY & Hkey & Hrecorded).
  by exists X, d, Y.
Qed.

Lemma depVersions_provenance_witness :
  ∃ X d Y, X ∈ Registry.scenario ∧ d ∈ combinedDependencies X
           ∧ createPackageMap Registry.scenario !! dep_name d = Some Y
           ∧ unitKey (dep_name d) (monoRepo Y) = Some "Client"
           ∧ @recordedFor Caret.semver d Y "1.2.0".
Proof.
  apply (@depVersions_provenance Caret.semver Registry.scenario
           (default initialState (finalState (@bumpDecision Caret.semver Registry.scenario)))).
  - by vm_compute.
  - by vm_compute.
Defined.

Section decision_more.
Context `{Semver}.
Variable packages : list Package.

Let buildPackages := createPackageMap packages.

Lemma clientWave_flag s1 :
  checkMonoRepoNeedBump buildPackages packages (traversalFuel packages) Client initialState
  = Done tt s1 →
  serverNeedBump s1 = true →
  serverReached buildPackages (λ r, r ∈ membersOf Client packages).
Proof.
  intros Hwave.
  pose proof (checkMonoRepoNeedBump_good buildPackages (createPackageMap_keyed packages)
                (flagPre buildPackages (λ r, r ∈ membersOf Client packages))
                (flagInv buildPackages (λ r, r ∈ membersOf Client packages))
                (reachable buildPackages (λ r, r ∈ membersOf Client packages))
                (λ r, r ∈ membersOf Client packages)
                (flag_root buildPackages _) (flag_log buildPackages _)
                (flag_add buildPackages _) (flag_flag buildPackages _)
                (flag_save buildPackages _)
                (traversalFuel packages) Client packages [] initialState) as Hgood.
  rewrite Hwave in Hgood. destruct Hgood as (_ & [_ Hflag] & _); [| | | |done].
  - intros r Hr Hk. by apply elem_of_membersOf.
  - apply createPackageMap_size.
  - split; [apply NoDup_nil_2|]. intros p Hp. by apply elem_of_nil in Hp.
  - split; [|done]. split; [unfold scansAre; reflexivity|].
    intros p Hp. by apply elem_of_nil in Hp.
Qed.

End decision_more.

(** X10: after a traversal that ends normally, [serverNeedBump] is set
    exactly when satisfied dependency edges lead from a member of the
    Client group to a member of the Server group. *)
Theorem serverNeedBump_iff `{Semver} packages st :
  bumpDecision packages = Done tt st →
  serverNeedBump st = true
  ↔ serverReached (createPackageMap packages) (λ r, r ∈ membersOf Client packages).
Proof.
  intros Hrun. split.
  - intros Hflag. rewrite bumpDecision_unfold in Hrun.
    destruct (checkMonoRepoNeedBump _ _ _ Client initialState) as [[] s1|e s1|] eqn:E1;
      [|done..].
    apply clientWave_flag in E1 as Hreached; [done|].
    destruct (serverNeedBump s1) eqn:E; [done|]. injection Hrun as <-. congruence.
  - intros (r & Y & Hr & HY & Hreach).
    assert (Hgood : r ∈ roots packages st ∨ r ∈ packageNeedBump st).
    { left. unfold roots. apply elem_of_app. by left. }
    clear Hr. induction Hreach as [X Y Hedge|X Z Y Hedge _ IH].
    + destruct (decision_step packages st X Y Hrun Hgood Hedge) as [[_ Hserver] _]. auto.
    + destruct (decision_step packages st X Z Hrun Hgood Hedge) as [_ HZ]. auto.
Qed.

Lemma serverNeedBump_iff_witness :
  let st := default initialState (finalState (@bumpDecision Caret.semver Registry.twoWaves)) in
  @bumpDecision Caret.semver Registry.twoWaves = Done tt st
  ∧ (serverNeedBump st = true
     ↔ @serverReached Caret.semver (createPackageMap Registry.twoWaves)
         (λ r, r ∈ membersOf Client Registry.twoWaves)).
Proof.
  intros st. split; [by vm_compute|].
  apply (@serverNeedBump_iff Caret.semver Registry.twoWaves). by vm_compute.
Defined.

(** X11: whenever the traversal stops, normally or by a throw, every
    member of the BumpSet is a standalone package of the registry, the one
    registered under its name: a member of a group is never bumped on its
    own. *)
Theorem bumpSet_members `{Semver} packages st P :
  finalState (bumpDecision packages) = Some st →
  P ∈ packageNeedBump st →
  standalone P ∧ P ∈ packages ∧ createPackageMap packages !! name P = Some P.
Proof.
  intros Hst HP. pose proof (bumpDecision_good packages) as Hgood.
  destruct (bumpDecision packages) as [[] s|e s|]; [| |done];
    injection Hst as ->; destruct Hgood as ([_ Hin] & _);
    destruct (Hin P HP) as [Hmap Hnone];
    (split; [done|]); (split; [|done]);
    by apply createPackageMap_lookup in Hmap as [_ ?].
Qed.

Lemma bumpSet_members_witness :
  standalone Registry.ping ∧ Registry.ping ∈ Registry.cyclic
  ∧ createPackageMap Registry.cyclic !! name Registry.ping = Some Registry.ping.
Proof.
  apply (@bumpSet_members Caret.semver Registry.cyclic
           (default initialState (finalState (@bumpDecision Caret.semver Registry.cyclic)))).
  - by vm_compute.
  - vm_compute. apply list_elem_of_here.
Defined.

Lemma checkMonoRepoNeedBump_skip `{Semver} buildPackages packages fuel checkRepo st :
  (∀ p, p ∈ packages → kindOf p ≠ Some checkRepo) →
  checkMonoRepoNeedBump buildPackages packages fuel checkRepo st = Done tt st.
Proof.
  unfold checkMonoRepoNeedBump.
  induction packages as [|p packages IH]; intros Hnone; simpl; [done|].
  destruct (decide (kindOf p = Some checkRepo)) as [Hk|Hk].
  - destruct (Hnone p); [by left|done].
  - unfold mbind, M_bind, mret, M_ret. apply IH. intros q Hq. apply Hnone. by right.
Qed.

(** X12: a registry without any member of the Client group gives the
    traversal nothing to do: it ends normally with an empty BumpSet, the
    flag unset and nothing recorded, whatever the other packages declare. *)
Theorem bumpDecision_no_client `{Semver} packages :
  membersOf Client packages = [] →
  bumpDecision packages = Done tt initialState.
Proof.
  intros Hnone. rewrite bumpDecision_unfold, checkMonoRepoNeedBump_skip; [done|].
  intros p Hp Hk.
  assert (Hin : p ∈ membersOf Client packages) by by apply elem_of_membersOf.
  rewrite Hnone in Hin. by apply elem_of_nil in Hin.
Qed.

Lemma bumpDecision_no_client_witness :
  @bumpDecision Caret.semver [Registry.service; Registry.gateway; Registry.logger]
  = Done tt initialState.
Proof.
  apply (@bumpDecision_no_client Caret.semver). reflexivity.
Defined.

(** X13: a standalone package of the repository, not named [__proto__],
    that no package of the repository declares as a dependency (and that
    has neither the name of a group nor that of a generator package) is an
    own property of the snapshot but not of the dependency versions, so the
    release report fails on it: [main] runs no mutating command and, if it
    gets as far as the report, is rejected with the [TypeError] that
    [.padStart(10)] raises on what the read of a name that is not there
    gives. *)
Theorem main_undeclared_standalone `{Semver} env P :
  P ∈ repoPackages env → monoRepo P = None → name P ≠ protoKey →
  ¬ groupKey (name P) → ¬ declared (repoPackages env) (name P) →
  name P ≠ name (generatorPackage env) → name P ≠ name (templatePackage env) →
  (main env).1 = [Exec "git rev-parse --abbrev-ref HEAD" (resolvedRoot env)]
  ∧ (main env).2 ≠ Completed
  ∧ ∀ d, decisionPhase env = Decided d →
         reportRelease (oldVersions d) (releaseVersions d)
         = Throw (EngineTypeError "padStart").
Proof.
  intros HP Hnone Hproto Hgroup Hdeclared Hgen Htmpl.
  assert (Hreport : ∀ d, decisionPhase env = Decided d →
            reportRelease (oldVersions d) (releaseVersions d)
            = Throw (EngineTypeError "padStart")).
  { intros d Hd. apply decisionPhase_Decided in Hd as (Hrun & Hrelease & Hold).
    unfold reportRelease. rewrite bool_decide_eq_false_2; [done|].
    intros Hsub. apply collectVersions_Ok_dom in Hold.
    assert (Hin : name P ∈ dom (oldVersions d)).
    { rewrite Hold. unfold unitKeys. apply elem_of_union. left.
      apply elem_of_list_to_set, list_elem_of_omap. exists P. split; [done|].
      rewrite Hnone. by apply unitKey_standalone. }
    apply Hsub in Hin. apply elem_of_dom in Hin.
    rewrite Hrelease, !lookup_assign_ne in Hin by done.
    assert (Hst : finalState (bumpDecision (repoPackages env)) = Some (decided d))
      by by rewrite Hrun.
    destruct (bumpDecision_keysKnown _ _ Hst _ Hin); done. }
  split; [|split; [|done]]; unfold main.
  all: destruct (gitError env); [done|].
  all: destruct (_ && _); [done|].
  all: destruct (decisionPhase env) as [d|e|]; [|done..].
  all: by rewrite (Hreport d eq_refl).
Qed.

Lemma main_undeclared_standalone_witness :
  (@main Caret.semver scenarioEnv).1 = [Exec "git rev-parse --abbrev-ref HEAD" "/repo"]
  ∧ (@main Caret.semver scenarioEnv).2 ≠ Completed.
Proof.
  destruct (@main_undeclared_standalone Caret.semver scenarioEnv Registry.tool)
    as (Hevents & Houtcome & _).
  - apply list_elem_of_further, list_elem_of_further, list_elem_of_here.
  - reflexivity.
  - discriminate.
  - intros [k Hk]. by destruct k.
  - intros (X & d & HX & Hd & Hname). vm_compute in HX.
    repeat (apply elem_of_cons in HX as [->|HX];
            [vm_compute in Hd;
             repeat (apply elem_of_cons in Hd as [->|Hd]; [done|]);
             by apply elem_of_nil in Hd|]).
    by apply elem_of_nil in HX.
  - discriminate.
  - discriminate.
  - by split.
Defined.



(** ** [parseOptions] and [versionCheck] *)

Section options_proofs.
Variable parseOption : list string → nat → Z.

Lemma parseFrom_outcome argv fuel : ∀ i,
  length argv ≤ fuel + i →
  ∃ r, parseFrom parseOption fuel argv i = Some r
       ∧ match r with
         | Returned => length argv ≤ i ∨ (0 < parseOption argv i)%Z
         | Exited code complaint =>
             ∃ j arg, i ≤ j ∧ argv !! j = Some arg
               ∧ (((parseOption argv j < 0)%Z ∧ code = (-1)%Z ∧ complaint = None)
                  ∨ (parseOption argv j = 0%Z
                     ∧ if isHelp arg then code = 0%Z ∧ complaint = None
                       else code = (-1)%Z ∧ complaint = Some (invalidArguments arg)))
         end.
Proof.
  induction fuel as [|fuel IH]; intros i Hfuel.
  - simpl. destruct (Nat.leb_spec (length argv) i) as [Hle|Hlt]; [|lia].
    exists Returned. split; [done|by left].
  - simpl. destruct (Nat.leb_spec (length argv) i) as [Hle|Hlt].
    { exists Returned. split; [done|by left]. }
    destruct (lookup_lt_is_Some_2 argv i Hlt) as [arg Harg].
    destruct (Z.ltb_spec (parseOption argv i) 0) as [Hneg|Hnonneg].
    { eexists. split; [done|]. exists i, arg. split; [done|]. split; [done|]. by left. }
    destruct (Z.ltb_spec 0 (parseOption argv i)) as [Hpos|Hzero].
    + destruct (IH (i + Z.to_nat (parseOption argv i - 1) + 1)) as (r & -> & Hr); [lia|].
      exists r. split; [done|]. destruct r as [|code complaint]; [by right|].
      destruct Hr as (j & arg' & Hj & Hrest). exists j, arg'. split; [lia|done].
    + rewrite Harg. simpl. assert (parseOption argv i = 0%Z) as Hz by lia.
      destruct (isHelp arg) eqn:Ehelp; eexists; (split; [done|]);
        exists i, arg; (split; [done|]); (split; [done|]); right; rewrite Ehelp; done.
Qed.

(** X14: [parseOptions] always ends, and an exit is always owed to an
    argument after the first two: an exit with code 0 to an argument [-?]
    or [--help] that [parseOption] did not take, an exit with code -1 either
    to an error of [parseOption] or to an argument it did not take and that
    is not a call for help, which the complaint then names. *)
Theorem parseOptions_outcome argv :
  ∃ r, parseOptions parseOption argv = Some r
       ∧ match r with
         | Returned => length argv ≤ 2 ∨ (0 < parseOption argv 2)%Z
         | Exited code complaint =>
             ∃ j arg, 2 ≤ j ∧ argv !! j = Some arg
               ∧ (((parseOption argv j < 0)%Z ∧ code = (-1)%Z ∧ complaint = None)
                  ∨ (parseOption argv j = 0%Z
                     ∧ if isHelp arg then code = 0%Z ∧ complaint = None
                       else code = (-1)%Z ∧ complaint = Some (invalidArguments arg)))
         end.
Proof. apply parseFrom_outcome. lia. Qed.



End options_proofs.


(** X16: [versionCheck] compares the two versions as strings.  For a
    package version 0.0.x it warns exactly when the first character of x is
    above [5], or is [5] with something after it: 0.0.6 and 0.0.50 warn,
    0.0.10 does not. *)
Theorem versionCheck_patch c rest :
  is_Some (versionCheck ("0.0." +:+ String c rest))
  ↔ (N_of_ascii "5" < N_of_ascii c)%N ∨ (c = "5"%char ∧ rest ≠ EmptyString).
Proof.
  unfold versionCheck, String.ltb. simpl.
  unfold Ascii.compare.
  destruct (N.compare_spec (N_of_ascii "5") (N_of_ascii c)) as [Heq|Hlt|Hgt].
  - apply (f_equal ascii_of_N) in Heq. rewrite !ascii_N_embedding in Heq. subst c.
    destruct rest; simpl.
    + split; [by intros [? ?]|]. intros [Hlt|[_ ?]]; [by apply N.lt_irrefl in Hlt|done].
    + split; [|by eexists]. intros _. by right.
  - split; [by left|by eexists].
  - split; [by intros [? ?]|].
    intros [Hlt|[-> _]]; [destruct (N.lt_asymm _ _ Hgt Hlt)|by apply N.lt_irrefl in Hgt].
Qed.
